(** * RTags indexing core: jobs, file claims and symbol listing

    A shallow embedding of [src/IndexerJob.cpp], [src/Project.h] and
    [src/ListSymbolsJob.cpp].  Each module below carries the name of the
    translation unit or header it follows.  File identifiers ([uint32_t]),
    job keys and job identifiers ([uint64_t]) are binary naturals, [int] is
    [Z], [String] and [Path] are [string], [Hash] and [Map] containers are
    [gmap], [Set] and [std::set] are [gset]. *)

From Stdlib Require Import ZArith NArith Lia Ascii.
From stdpp Require Import base option list gmap sets strings sorting.

(** * Results of a call

    [assert] aborts the process; reading through a null or dangling pointer
    or taking [front()] of an empty vector is undefined in C++; the
    recursive closure of [priority()] is run with a step budget. *)

Inductive outcome (A : Type) : Type :=
| Ok (a : A)
| AssertionFailed
| UndefinedBehaviour
| OutOfFuel.
Arguments Ok {A} a.
Arguments AssertionFailed {A}.
Arguments UndefinedBehaviour {A}.
Arguments OutOfFuel {A}.

Definition obind {A B} (m : outcome A) (k : A → outcome B) : outcome B :=
  match m with
  | Ok a => k a
  | AssertionFailed => AssertionFailed
  | UndefinedBehaviour => UndefinedBehaviour
  | OutOfFuel => OutOfFuel
  end.

Notation "x ←' m ; k" := (obind m (λ x, k))
  (at level 20, m at level 100, k at level 200, right associativity,
   format "x  ←'  m ;  '/' k").

(** [assert(c)] *)
Definition assert (c : bool) : outcome unit :=
  if c then Ok tt else AssertionFailed.

(** * rct strings and paths *)

Abbreviation Path := string (only parsing).

(** [String::isEmpty] *)
Definition isEmpty (s : string) : bool := bool_decide (s = "").

(** * Source.h: one compile command *)

Module Source_h.

(** [fileId], the argument list, the include paths and the set of
    [Define]s (name and value). *)
Record Source := {
  fileId : N;
  arguments : list string;
  includePaths : list string;
  defines : gset (string * string);
}.

Definition set_arguments (a : list string) (s : Source) : Source :=
  {| fileId := fileId s; arguments := a;
     includePaths := includePaths s; defines := defines s |}.

Definition set_includePaths (i : list string) (s : Source) : Source :=
  {| fileId := fileId s; arguments := arguments s;
     includePaths := i; defines := defines s |}.

Definition set_defines (d : gset (string * string)) (s : Source) : Source :=
  {| fileId := fileId s; arguments := arguments s;
     includePaths := includePaths s; defines := d |}.

End Source_h.

(** * IndexerJob.h: the job record *)

Module IndexerJob_h.

Inductive Flag := Dirty | Reindex | Compile | Running | Crashed | Aborted | Complete.

(** [Flags<Flag>]: which bits are set. *)
Definition Flags := Flag → bool.

(** [INT_MIN], the value of an unset cached priority. *)
Definition INT_MIN : Z := (- 2 ^ 31)%Z.

Record IndexerJob := {
  id : N;
  sources : list Source_h.Source;
  sourceFile : Path;
  flags : Flags;
  project : Path;
  unsavedFiles : gmap N string;
  visited : gset N;
  crashCount : Z;
  mCachedPriority : Z;
}.

Definition set_visited (v : gset N) (j : IndexerJob) : IndexerJob :=
  {| id := id j; sources := sources j; sourceFile := sourceFile j;
     flags := flags j; project := project j; unsavedFiles := unsavedFiles j;
     visited := v; crashCount := crashCount j;
     mCachedPriority := mCachedPriority j |}.

Definition set_flags (f : Flags) (j : IndexerJob) : IndexerJob :=
  {| id := id j; sources := sources j; sourceFile := sourceFile j;
     flags := f; project := project j; unsavedFiles := unsavedFiles j;
     visited := visited j; crashCount := crashCount j;
     mCachedPriority := mCachedPriority j |}.

Definition set_mCachedPriority (p : Z) (j : IndexerJob) : IndexerJob :=
  {| id := id j; sources := sources j; sourceFile := sourceFile j;
     flags := flags j; project := project j; unsavedFiles := unsavedFiles j;
     visited := visited j; crashCount := crashCount j;
     mCachedPriority := p |}.

End IndexerJob_h.

(** * Project.h *)

Module Project_h.
Import IndexerJob_h.

(** A node of the include graph.  Nodes are addressed by the file
    identifier they are stored under in [mDependencies]; [includes] lists
    the included nodes in the iteration order of the [Map], ascending by
    file identifier. *)
Record DependencyNode := {
  fileId : N;
  includes : list N;
}.

(** The jobs behind the [std::shared_ptr<IndexerJob>] values, by address. *)
Abbreviation JobHeap := (gmap N IndexerJob) (only parsing).

Record Project := {
  mPath : Path;
  mVisitedFiles : gmap N string;
  (** key'ed on [Source::key()]; [None] is a null pointer *)
  mActiveJobs : gmap N (option N);
  mDependencies : gmap N DependencyNode;
}.

Definition set_mVisitedFiles (v : gmap N string) (p : Project) : Project :=
  {| mPath := mPath p; mVisitedFiles := v;
     mActiveJobs := mActiveJobs p; mDependencies := mDependencies p |}.

(** [Hash::operator[]]: a missing key is first bound to the default value. *)
Definition subscript (m : gmap N string) (k : N) : gmap N string * string :=
  match m !! k with
  | Some v => (m, v)
  | None => (<[k := ""]> m, "")
  end.

(** [Project::visitFile], on the project and the jobs it points to. *)
Definition visitFile (visitFileId : N) (path : Path) (key : N)
    (st : Project * JobHeap) : outcome (bool * (Project * JobHeap)) :=
  let '(proj, heap) := st in
  _ ←' assert (negb (visitFileId =? 0)%N);
  let '(files, p) := subscript (mVisitedFiles proj) visitFileId in
  if isEmpty p then
    let proj' := set_mVisitedFiles (<[visitFileId := path]> files) proj in
    if negb (key =? 0)%N then
      _ ←' assert (bool_decide (is_Some (mActiveJobs proj !! key)));
      match mActiveJobs proj !! key with
      | Some (Some addr) =>
          match heap !! addr with
          | Some job =>
              Ok (true, (proj', <[addr := set_visited ({[visitFileId]} ∪ visited job) job]> heap))
          | None => UndefinedBehaviour
          end
      | _ => AssertionFailed
      end
    else Ok (true, (proj', heap))
  else Ok (false, (set_mVisitedFiles files proj, heap)).

(** [Project::releaseFileIds] *)
Definition releaseFileIds (fileIds : gset N) (proj : Project) : Project :=
  if bool_decide (fileIds = ∅) then proj
  else set_mVisitedFiles
         (set_fold (λ f m, delete f m) (mVisitedFiles proj) fileIds) proj.

(** [Project::isActiveJob] *)
Definition isActiveJob (key : N) (proj : Project) : bool :=
  (key =? 0)%N || bool_decide (is_Some (mActiveJobs proj !! key)).

(** [Project::isIndexing] *)
Definition isIndexing (proj : Project) : bool :=
  negb (bool_decide (mActiveJobs proj = ∅)).

(** [Project::visitedFiles] *)
Definition visitedFiles (proj : Project) : gmap N string := mVisitedFiles proj.

End Project_h.

(** * Server.h: buffer states, projects and options *)

Module Server_h.
Import Project_h.

Inductive ActiveBufferType := Inactive | Active | Open.

#[global] Instance ActiveBufferType_eq_dec : EqDecision ActiveBufferType.
Proof. solve_decision. Defined.

Inductive Option :=
| AllowWErrorAndWFatalErrors
| AllowPedantic
| EnableCompilerManager
| PCHEnabled
| EnableNDEBUG.

Record Options := {
  options : Option → bool;
  sandboxRoot : Path;
  socketFile : Path;
  dataDir : Path;
  defaultArguments : list string;
  includePaths : list string;
  defines : gset (string * string);
  blockedArguments : gset string;
  debugLocations : list string;
  rpVisitFileTimeout : Z;
  rpIndexDataMessageTimeout : Z;
  rpConnectTimeout : Z;
  rpConnectAttempts : Z;
  rpNiceValue : Z;
}.

(** What [Server::instance()] answers: [project(path)] is a lookup in
    [projects] (a null pointer when absent), [currentProject()] names the
    focused project. *)
Record Server := {
  activeBufferType : N → ActiveBufferType;
  projects : gmap string Project;
  currentProject : option string;
  serverOptions : Options;
}.

(** Modelled from the spec: [Server::filterBlockedArguments] is not part of
    the sources; "drop arguments on a configured block-list". *)
Definition filterBlockedArguments (o : Options) (s : Source_h.Source) : Source_h.Source :=
  Source_h.set_arguments
    (filter (λ a, a ∉ blockedArguments o) (Source_h.arguments s)) s.

End Server_h.

(** * IndexerJob.cpp *)

Module IndexerJob_cpp.
Import IndexerJob_h Project_h Server_h.

Section IndexerJob.

(** Collaborators declared outside the three sources: [Location::path],
    [Path::isSystem], [Source::compareArguments],
    [CompilerManager::applyToSource] (with [IncludeIncludePaths]),
    [Project::fixPCH] and [RTags::DatabaseVersion]. *)
Variable Location_path : N → Path.
Variable isSystem : Path → bool.
Variable compareArguments : Source_h.Source → Source_h.Source → bool.
Variable applyToSource : Source_h.Source → Source_h.Source.
Variable fixPCH : Project → Source_h.Source → Source_h.Source.
Variable DatabaseVersion : Z.

(** The inner loop of the constructor: is [src] argument-equal to one of
    the sources kept so far?  The scan stops at the first hit. *)
Fixpoint found (src : Source_h.Source) (sources : list Source_h.Source) : bool :=
  match sources with
  | [] => false
  | kept :: rest => if compareArguments src kept then true else found src rest
  end.

(** The outer loop, over [s.at(1)], [s.at(2)], ... *)
Fixpoint keep (rest : list Source_h.Source) (sources : list Source_h.Source)
    : list Source_h.Source :=
  match rest with
  | [] => sources
  | src :: rest' =>
      keep rest' (if found src sources then sources else sources ++ [src])
  end.

(** [IndexerJob::acquireId]: [id = sNextId++] on a [uint64_t]. *)
Definition acquireId (sNextId : N) : N * N :=
  (sNextId, ((sNextId + 1) mod 2 ^ 64)%N).

(** [IndexerJob::IndexerJob].  [p] is the project pointer ([None] when
    null), [sNextId] the static counter, returned updated. *)
Definition IndexerJob_ctor (s : list Source_h.Source) (f : Flags)
    (p : option Project) (u : gmap N string) (sNextId : N)
    : outcome (IndexerJob * N) :=
  match p with
  | None => UndefinedBehaviour
  | Some proj =>
      match s with
      | [] => UndefinedBehaviour
      | front :: rest =>
          let sources := keep rest [front] in
          _ ←' assert (negb (bool_decide (sources = [])));
          let '(id, sNextId') := acquireId sNextId in
          match sources with
          | [] => UndefinedBehaviour
          | first :: _ =>
              Ok ({| id := id; sources := sources;
                     sourceFile := Location_path (Source_h.fileId front);
                     flags := f; project := mPath proj; unsavedFiles := u;
                     visited := {[Source_h.fileId first]};
                     crashCount := 0; mCachedPriority := INT_MIN |},
                  sNextId')
          end
      end
  end.

(** The [for] loop in the closure [func] of [priority()], over the
    includes [incs] of node [n] that are still to be looked at; [call] is
    the closure itself and [seen] the captured set, threaded through. *)
Fixpoint for_includes (server : Server) (call : N → gset N → outcome (bool * gset N))
    (n : DependencyNode) (incs : list N) (seen : gset N) {struct incs}
    : outcome (bool * gset N) :=
  match incs with
  | [] => Ok (false, seen)
  | inc :: incs' =>
      if bool_decide (inc ∈ seen) then for_includes server call n incs' seen
      else
        let seen1 := {[inc]} ∪ seen in
        if isSystem (Location_path (fileId n)) then for_includes server call n incs' seen1
        else if negb (bool_decide (activeBufferType server (fileId n) = Inactive))
        then Ok (true, seen1)
        else
          r ←' call inc seen1;
          if r.1 then Ok (true, r.2) else for_includes server call n incs' r.2
  end.

(** The recursive closure [func].  [n] addresses the node; an address
    without a node in [deps] has nothing to iterate.  One unit of [fuel]
    is spent per nested call. *)
Fixpoint func (server : Server) (deps : gmap N DependencyNode) (fuel : nat)
    (n : N) (seen : gset N) {struct fuel} : outcome (bool * gset N) :=
  match fuel with
  | O => OutOfFuel
  | S fuel' =>
      match deps !! n with
      | None => Ok (false, seen)
      | Some node =>
          for_includes server (func server deps fuel') node (includes node) seen
      end
  end.

(** Depth budget that no traversal of [deps] exceeds. *)
Definition depth_bound (deps : gmap N DependencyNode) : nat := size deps + 2.

(** [IndexerJob::priority], returning the value and the job with its
    cache filled. *)
Definition priority (server : Server) (job : IndexerJob) : outcome (Z * IndexerJob) :=
  if (mCachedPriority job =? INT_MIN)%Z then
    match sources job with
    | [] => UndefinedBehaviour
    | first :: _ =>
        let fileId := Source_h.fileId first in
        let ret := 0%Z in
        let ret :=
          if flags job Dirty then (ret + 1)%Z
          else if flags job Reindex then (ret + 4)%Z
          else ret in
        let p := projects server !! project job in
        ret ←' match activeBufferType server fileId with
               | Active => Ok (ret + 8)%Z
               | Open => Ok (ret + 3)%Z
               | Inactive =>
                   match p with
                   | None => UndefinedBehaviour
                   | Some proj =>
                       match mDependencies proj !! fileId with
                       | None => Ok ret
                       | Some _ =>
                           r ←' func server (mDependencies proj)
                                  (depth_bound (mDependencies proj))
                                  fileId {[fileId]};
                           Ok (if r.1 then (ret + 2)%Z else ret)
                       end
                   end
               end;
        let ret :=
          if bool_decide (is_Some p) && bool_decide (currentProject server = Some (project job))
          then (ret + 1)%Z else ret in
        Ok (ret, set_mCachedPriority ret job)
    end
  else Ok (mCachedPriority job, job).

(** [IndexerJob::recalculatePriority] *)
Definition recalculatePriority (server : Server) (job : IndexerJob) : outcome IndexerJob :=
  r ←' priority server (set_mCachedPriority INT_MIN job);
  Ok r.2.

(** [std::find] followed by [erase] of the iterator it returns: the first
    element equal to [x] is removed, if there is one. *)
Fixpoint erase_first (x : string) (l : list string) : list string :=
  match l with
  | [] => []
  | y :: l' => if bool_decide (y = x) then l' else y :: erase_first x l'
  end.

(** The body of the loop over [sources] in [encode()]: what becomes of
    one [copy] before it is written out. *)
Definition transform (o : Options) (proj : option Project) (sourceFile : Path)
    (copy : Source_h.Source) : outcome Source_h.Source :=
  let copy :=
    if negb (options o AllowWErrorAndWFatalErrors) then
      Source_h.set_arguments
        (erase_first "-Wfatal-errors" (erase_first "-Werror" (Source_h.arguments copy)))
        copy
    else copy in
  let copy :=
    Source_h.set_arguments (Source_h.arguments copy ++ defaultArguments o) copy in
  let copy :=
    if negb (options o AllowPedantic) then
      Source_h.set_arguments (erase_first "-Wpedantic" (Source_h.arguments copy)) copy
    else copy in
  let copy :=
    if options o EnableCompilerManager then applyToSource copy else copy in
  let copy := filterBlockedArguments o copy in
  let copy :=
    Source_h.set_includePaths (includePaths o ++ Source_h.includePaths copy) copy in
  copy ←' (if options o PCHEnabled then
             match proj with
             | None => UndefinedBehaviour
             | Some pr => Ok (fixPCH pr copy)
             end
           else Ok copy);
  let copy := Source_h.set_defines (Source_h.defines copy ∪ defines o) copy in
  let copy :=
    if negb (options o EnableNDEBUG) then
      Source_h.set_defines (Source_h.defines copy ∖ {[("NDEBUG", "")]}) copy
    else copy in
  _ ←' assert (negb (isEmpty sourceFile));
  Ok copy.

(** The loop over [sources]. *)
Fixpoint transform_all (o : Options) (proj : option Project) (sourceFile : Path)
    (l : list Source_h.Source) : outcome (list Source_h.Source) :=
  match l with
  | [] => Ok []
  | src :: l' =>
      copy ←' transform o proj sourceFile src;
      rest ←' transform_all o proj sourceFile l';
      Ok (copy :: rest)
  end.

(** The fields of the payload, in the order they are serialized (the
    four-byte length in front is a function of them). *)
Record Payload := {
  pl_version : Z;
  pl_sandboxRoot : Path;
  pl_id : N;
  pl_socketFile : Path;
  pl_project : Path;
  pl_sourceCount : Z;
  pl_sources : list Source_h.Source;
  pl_sourceFile : Path;
  pl_flags : Flags;
  pl_rpVisitFileTimeout : Z;
  pl_rpIndexDataMessageTimeout : Z;
  pl_rpConnectTimeout : Z;
  pl_rpConnectAttempts : Z;
  pl_rpNiceValue : Z;
  pl_options : Option → bool;
  pl_unsavedFiles : gmap N string;
  pl_dataDir : Path;
  pl_debugLocations : list string;
  pl_visitedFiles : gmap N string;
}.

Definition uint16 (z : Z) : Z := (z mod 2 ^ 16)%Z.
Definition uint32 (z : Z) : Z := (z mod 2 ^ 32)%Z.
Definition int32 (z : Z) : Z := ((z + 2 ^ 31) mod 2 ^ 32 - 2 ^ 31)%Z.

(** [IndexerJob::encode] *)
Definition encode (server : Server) (job : IndexerJob) : outcome Payload :=
  let proj := projects server !! project job in
  let o := serverOptions server in
  copies ←' transform_all o proj (sourceFile job) (sources job);
  _ ←' assert (bool_decide (is_Some proj));
  match proj with
  | None => UndefinedBehaviour
  | Some pr =>
      Ok {| pl_version := uint16 DatabaseVersion;
            pl_sandboxRoot := sandboxRoot o;
            pl_id := id job;
            pl_socketFile := socketFile o;
            pl_project := project job;
            pl_sourceCount := uint32 (Z.of_nat (length (sources job)));
            pl_sources := copies;
            pl_sourceFile := sourceFile job;
            pl_flags := flags job;
            pl_rpVisitFileTimeout := uint32 (rpVisitFileTimeout o);
            pl_rpIndexDataMessageTimeout := uint32 (rpIndexDataMessageTimeout o);
            pl_rpConnectTimeout := uint32 (rpConnectTimeout o);
            pl_rpConnectAttempts := uint32 (rpConnectAttempts o);
            pl_rpNiceValue := int32 (rpNiceValue o);
            pl_options := options o;
            pl_unsavedFiles := unsavedFiles job;
            pl_dataDir := dataDir o;
            pl_debugLocations := debugLocations o;
            pl_visitedFiles := mVisitedFiles pr |}
  end.

(** [String::join]: the elements with [sep] between them. *)
Fixpoint join (l : list string) (sep : string) : string :=
  match l with
  | [] => ""
  | [x] => x
  | x :: l' => x +:+ sep +:+ join l' sep
  end.

(** The vector [ret] that [dumpFlags] fills. *)
Definition flagNames (flags : Flags) : list string :=
  (if flags Dirty then ["Dirty"] else [])
  ++ (if flags Reindex then ["Reindex"] else [])
  ++ (if flags Compile then ["Compile"] else [])
  ++ (if flags Running then ["Running"] else [])
  ++ (if flags Crashed then ["Crashed"] else [])
  ++ (if flags Aborted then ["Aborted"] else [])
  ++ (if flags Complete then ["Complete"] else []).

(** [IndexerJob::dumpFlags] *)
Definition dumpFlags (flags : Flags) : string := join (flagNames flags) ", ".

End IndexerJob.
End IndexerJob_cpp.

(** * rct/String.h: the string operations the listing uses *)

Module String_h.

Inductive CaseSensitivity := CaseSensitive | CaseInsensitive.

(** [tolower] on one byte *)
Definition toLower (c : ascii) : ascii :=
  let n := Ascii.N_of_ascii c in
  if ((65 <=? n) && (n <=? 90))%N then Ascii.ascii_of_N (n + 32) else c.

Fixpoint lower (s : string) : string :=
  match s with
  | EmptyString => EmptyString
  | String c s' => String (toLower c) (lower s')
  end.

Definition fold_case (cs : CaseSensitivity) (s : string) : string :=
  match cs with CaseSensitive => s | CaseInsensitive => lower s end.

(** [String::contains(char)] *)
Fixpoint contains_char (c : ascii) (s : string) : bool :=
  match s with
  | EmptyString => false
  | String d s' => if Ascii.eqb d c then true else contains_char c s'
  end.

(** [String::endsWith(char)] *)
Fixpoint endsWith (c : ascii) (s : string) : bool :=
  match s with
  | EmptyString => false
  | String d EmptyString => Ascii.eqb d c
  | String _ s' => endsWith c s'
  end.

Fixpoint startsWith (p s : string) : bool :=
  match p, s with
  | EmptyString, _ => true
  | String a p', String b s' => Ascii.eqb a b && startsWith p' s'
  | String _ _, EmptyString => false
  end.

Fixpoint occurs (p s : string) : bool :=
  startsWith p s ||
  match s with
  | EmptyString => false
  | String _ s' => occurs p s'
  end.

(** [String::contains(const String &, CaseSensitivity)] *)
Definition contains (cs : CaseSensitivity) (other s : string) : bool :=
  occurs (fold_case cs other) (fold_case cs s).

(** [String::indexOf(char)]: position of the first [c], or [-1]. *)
Fixpoint indexOf_from (c : ascii) (s : string) (i : Z) : Z :=
  match s with
  | EmptyString => (-1)%Z
  | String d s' => if Ascii.eqb d c then i else indexOf_from c s' (i + 1)%Z
  end.

Definition indexOf (c : ascii) (s : string) : Z := indexOf_from c s 0.

(** [String::left(l)]: the first [l] characters. *)
Definition left (l : Z) (s : string) : string := String.substring 0 (Z.to_nat l) s.

(** [operator<] on strings, as a relation for sorting. *)
Definition le (a b : string) : Prop := String.leb a b = true.

#[global] Instance le_dec a b : Decision (le a b).
Proof. unfold le. apply _. Defined.

Definition ge (a b : string) : Prop := le b a.

#[global] Instance ge_dec a b : Decision (ge a b).
Proof. unfold ge. apply _. Defined.

End String_h.

(** * ListSymbolsJob.cpp *)

Module ListSymbolsJob_cpp.
Import Project_h String_h.

(** [QueryMessage::Flag], the bits this job reads. *)
Inductive QueryFlag :=
| WildcardSymbolNames
| Elisp
| ReverseSort
| StripParentheses
| MatchCaseInsensitive.

Inductive PathFilterMode := Self | Dependencies.

Record PathFilter := {
  mode : PathFilterMode;
  pattern : Path;
}.

Record Location := {
  loc_fileId : N;
  loc_offset : N;
}.

Record Symbol := {
  symbolName : string;
  kind : N;
}.

(** The job: the query string (which [execute] may extend), the flags and
    path filters of the query, and the project pointer. *)
Record ListSymbolsJob := {
  string_ : string;
  queryFlags : QueryFlag → bool;
  pathFilters : list PathFilter;
  project : option Project;
}.

Definition set_string (s : string) (j : ListSymbolsJob) : ListSymbolsJob :=
  {| string_ := s; queryFlags := queryFlags j;
     pathFilters := pathFilters j; project := project j |}.

(** One call of [write]: an element of the result, or one of the two list
    brackets of the Elisp form. *)
Inductive Written := Item (s : string) | Bracket (s : string).

Section ListSymbolsJob.

(** Collaborators declared outside the three sources:
    [Project::matchSymbolName], [RTags::isFunctionVariable],
    [QueryJob::filterKind], [QueryJob::hasFilter], [QueryJob::hasKindFilter],
    [QueryJob::filter], [Location::fileId], [Location::path], [Path::isFile],
    [Project::openSymbols] (the loaded table in key order, or nothing),
    [Project::findSymbol] and [Project::findSymbols] (the names and location
    sets it hands to its callback, in order). *)
Variable matchSymbolName : string → string → CaseSensitivity → bool.
Variable isFunctionVariable : string → bool.
Variable filterKind : Symbol → bool.
Variable hasFilter : bool.
Variable hasKindFilter : bool.
Variable filter_ : Path → bool.
Variable Location_fileId : Path → N.
Variable Location_path : N → Path.
Variable isFile : Path → bool.
Variable openSymbols : Project → N → option (list Symbol).
Variable findSymbol : Project → Location → Symbol.
Variable findSymbols :
  Project → string → (QueryFlag → bool) → list (string * list Location).

(** The extension of the query string at the start of [execute]. *)
Definition extend (job : ListSymbolsJob) : ListSymbolsJob :=
  if queryFlags job WildcardSymbolNames
     && (contains_char "*" (string_ job) || contains_char "?" (string_ job))
     && negb (endsWith "*" (string_ job))
  then set_string (string_ job +:+ "*") job
  else job.

(** The loop of [execute] over the path filters. *)
Fixpoint collectPaths (filters : list PathFilter) (paths : list Path) : list Path :=
  match filters with
  | [] => paths
  | f :: filters' =>
      match mode f with
      | Self =>
          if isFile (pattern f) then collectPaths filters' (paths ++ [pattern f])
          else []
      | Dependencies => []
      end
  end.

Definition wildcard (job : ListSymbolsJob) : bool :=
  queryFlags job WildcardSymbolNames
  && (contains_char "*" (string_ job) || contains_char "?" (string_ job)).

Definition caseSensitivity (job : ListSymbolsJob) : CaseSensitivity :=
  if queryFlags job MatchCaseInsensitive then CaseInsensitive else CaseSensitive.

(** The name test of [listSymbolsWithPathFilter]: [false] where the loop
    says [continue]. *)
Definition nameMatches (job : ListSymbolsJob) (symbolName : string) : bool :=
  if negb (isEmpty (string_ job)) then
    if wildcard job then matchSymbolName (string_ job) symbolName (caseSensitivity job)
    else contains (caseSensitivity job) (string_ job) symbolName
  else true.

(** The body of the loop over one table in [listSymbolsWithPathFilter]. *)
Definition scanSymbol (job : ListSymbolsJob) (out : gset string) (symbol : Symbol)
    : gset string :=
  if negb (filterKind symbol) then out
  else if isEmpty (symbolName symbol) then out
  else if negb (nameMatches job (symbolName symbol)) then out
  else if queryFlags job StripParentheses then
    let paren := indexOf "(" (symbolName symbol) in
    if (paren =? -1)%Z then {[symbolName symbol]} ∪ out
    else if negb (isFunctionVariable (symbolName symbol))
    then {[left paren (symbolName symbol)]} ∪ out
    else out
  else {[symbolName symbol]} ∪ out.

(** [ListSymbolsJob::listSymbolsWithPathFilter] *)
Definition listSymbolsWithPathFilter (job : ListSymbolsJob) (proj : Project)
    (paths : list Path) : gset string :=
  foldl (λ out file,
           let fileId := Location_fileId file in
           if (fileId =? 0)%N then out
           else match openSymbols proj fileId with
                | None => out
                | Some symbols => foldl (scanSymbol job) out symbols
                end) ∅ paths.

(** The callback [inserter] of [listSymbols]. *)
Definition inserter (job : ListSymbolsJob) (proj : Project) (out : gset string)
    (str : string) (locations : list Location) : outcome (gset string) :=
  if hasFilter && negb (existsb (λ l, filter_ (Location_path (loc_fileId l))) locations)
  then Ok out
  else
    ok ←' (if hasKindFilter then
             match locations with
             | [] => UndefinedBehaviour
             | l :: _ => Ok (filterKind (findSymbol proj l))
             end
           else Ok true);
    if negb ok then Ok out
    else
      let paren := indexOf "(" str in
      if (paren =? -1)%Z then Ok ({[str]} ∪ out)
      else
        let out :=
          if negb (isFunctionVariable str) then {[left paren str]} ∪ out else out in
        let out :=
          if negb (queryFlags job StripParentheses) then {[str]} ∪ out else out in
        Ok out.

Fixpoint insertAll (job : ListSymbolsJob) (proj : Project) (out : gset string)
    (l : list (string * list Location)) : outcome (gset string) :=
  match l with
  | [] => Ok out
  | (str, locations) :: l' =>
      out' ←' inserter job proj out str locations;
      insertAll job proj out' l'
  end.

(** [ListSymbolsJob::listSymbols] *)
Definition listSymbols (job : ListSymbolsJob) (proj : Project) : outcome (gset string) :=
  insertAll job proj ∅ (findSymbols proj (string_ job) (queryFlags job)).

(** The result set of [execute], before it is written. *)
Definition collect (job : ListSymbolsJob) : outcome (gset string * ListSymbolsJob) :=
  match project job with
  | None => Ok (∅, job)
  | Some proj =>
      let job := extend job in
      let paths := collectPaths (pathFilters job) [] in
      out ←' (if negb (bool_decide (paths = []))
              then Ok (listSymbolsWithPathFilter job proj paths)
              else listSymbols job proj);
      Ok (out, job)
  end.

(** [ListSymbolsJob::execute]: exit code, what was written, and the job. *)
Definition execute (job : ListSymbolsJob) : outcome (Z * list Written * ListSymbolsJob) :=
  r ←' collect job;
  let '(out, job) := r in
  let ascending := merge_sort le (elements out) in
  let written :=
    if queryFlags job Elisp then
      [Bracket "(list"] ++ (Item <$> ascending) ++ [Bracket ")"]
    else if queryFlags job ReverseSort then Item <$> merge_sort ge ascending
    else Item <$> merge_sort le ascending in
  Ok (if bool_decide (out = ∅) then 1%Z else 0%Z, written, job).

End ListSymbolsJob.

(** Modelled from the spec: [Project::matchSymbolName] is not part of the
    sources; the "wildcard syntax ([*], [?])" read as usual, [*] standing
    for any run of characters and [?] for exactly one. *)
Fixpoint wildCmp (cs : CaseSensitivity) (pattern s : string) {struct pattern} : bool :=
  match pattern with
  | EmptyString => isEmpty s
  | String p pattern' =>
      if Ascii.eqb p "*" then
        (fix star (s : string) : bool :=
           wildCmp cs pattern' s ||
           match s with
           | EmptyString => false
           | String _ s' => star s'
           end) s
      else
        match s with
        | EmptyString => false
        | String c s' =>
            (Ascii.eqb p "?"
             || match cs with
                | CaseSensitive => Ascii.eqb p c
                | CaseInsensitive => Ascii.eqb (toLower p) (toLower c)
                end)
            && wildCmp cs pattern' s'
        end
  end.

Definition matchSymbolName_glob (pattern symbolName : string) (cs : CaseSensitivity) : bool :=
  wildCmp cs pattern symbolName.

End ListSymbolsJob_cpp.

(** * Statements about the file claims of [Project.h] *)

Module Claims.
Import IndexerJob_h Project_h.

(** A path is recorded for [f]: the visited map binds [f] to a path that
    is not empty. *)
Definition recorded (proj : Project) (f : N) : Prop :=
  ∃ p, mVisitedFiles proj !! f = Some p ∧ p ≠ "".

(** [key] can take a claim: it is zero (no job), or it names a job in the
    registry whose pointer is not null. *)
Definition chargeable (st : Project * JobHeap) (key : N) : Prop :=
  key = 0%N ∨
  ∃ addr job, mActiveJobs st.1 !! key = Some (Some addr) ∧ st.2 !! addr = Some job.

(** The job at [addr] is pointed to from the registry of active jobs. *)
Definition activeJob (st : Project * JobHeap) (addr : N) (job : IndexerJob) : Prop :=
  (∃ key, mActiveJobs st.1 !! key = Some (Some addr)) ∧ st.2 !! addr = Some job.

(** No file identifier is in the [visited] set of two active jobs. *)
Definition exclusive (st : Project * JobHeap) : Prop :=
  ∀ f a1 j1 a2 j2,
    activeJob st a1 j1 → activeJob st a2 j2 →
    f ∈ visited j1 → f ∈ visited j2 → a1 = a2.

(** The job at [addr] held [f] in the state [init]; when [init] is fresh
    from the constructors, [f] is the primary file of that job, which the
    constructor puts in [visited] without an entry in the visited map. *)
Definition held_at (init : Project * JobHeap) (addr f : N) : Prop :=
  ∃ job, activeJob init addr job ∧ f ∈ visited job.

(** Every identifier an active job holds has a path recorded, or the job
    held it in [init] already. *)
Definition claims_accounted (init st : Project * JobHeap) : Prop :=
  ∀ f a j, activeJob st a j → f ∈ visited j → recorded st.1 f ∨ held_at init a f.

(** One call of [visitFile] that returns, or one call of [releaseFileIds]. *)
Inductive step : Project * JobHeap → Project * JobHeap → Prop :=
| step_visit f path key st b st' :
    visitFile f path key st = Ok (b, st') → step st st'
| step_release fileIds proj heap :
    step (proj, heap) (releaseFileIds fileIds proj, heap).

(** The same, where a claim carries a path, a file that a job held in
    [init] is, for as long as no path is recorded for it, claimed only on
    behalf of that job or of no job, and a release gives back only
    identifiers that no active job holds. *)
Inductive guarded_step (init : Project * JobHeap)
    : Project * JobHeap → Project * JobHeap → Prop :=
| guarded_visit f path key st b st' :
    path ≠ "" →
    (∀ a, held_at init a f →
          key = 0%N ∨ mActiveJobs st.1 !! key = Some (Some a) ∨ recorded st.1 f) →
    visitFile f path key st = Ok (b, st') → guarded_step init st st'
| guarded_release fileIds proj heap :
    (∀ f a j, f ∈ fileIds → activeJob (proj, heap) a j → f ∉ visited j) →
    guarded_step init (proj, heap) (releaseFileIds fileIds proj, heap).

(** A job that holds nothing but [fileId], as the constructor leaves it. *)
Definition job_of (id fileId : N) : IndexerJob :=
  {| id := id; sources := []; sourceFile := ""; flags := λ _, false;
     project := "/p/"; unsavedFiles := ∅; visited := {[fileId]};
     crashCount := 0; mCachedPriority := INT_MIN |}.

(** A project with an empty visited map and two active jobs, under keys 10
    and 20, for the files 1 and 2. *)
Definition two_jobs : Project * JobHeap :=
  ({| mPath := "/p/"; mVisitedFiles := ∅;
      mActiveJobs := {[10%N := Some 1%N; 20%N := Some 2%N]};
      mDependencies := ∅ |},
   {[1%N := job_of 1 1; 2%N := job_of 2 2]}).

(** The same project before its jobs hold anything. *)
Definition two_idle_jobs : Project * JobHeap :=
  (two_jobs.1,
   {[1%N := set_visited ∅ (job_of 1 1); 2%N := set_visited ∅ (job_of 2 2)]}).

End Claims.

(** * Statements about [IndexerJob::priority] *)

Module Priority.
Import IndexerJob_h Project_h Server_h.

(** The same server with the buffer of file [f] in state [t]. *)
Definition with_buffer (f : N) (t : ActiveBufferType) (server : Server) : Server :=
  {| activeBufferType := λ g, if (g =? f)%N then t else activeBufferType server g;
     projects := projects server;
     currentProject := currentProject server;
     serverOptions := serverOptions server |}.

Section spec.
Variable Location_path : N → Path.
Variable isSystem : Path → bool.
Variable server : Server.
Variable deps : gmap N DependencyNode.

(** The search in the words of the spec: from a node, follow [includes]
    to a file that is not a system header; it is found when its buffer is
    Active or Open, and searched in turn when its buffer is Inactive. *)
Inductive finds_active : N → Prop :=
| finds_included n node inc incnode :
    deps !! n = Some node → inc ∈ includes node →
    deps !! inc = Some incnode →
    isSystem (Location_path (fileId incnode)) = false →
    activeBufferType server (fileId incnode) ≠ Inactive →
    finds_active n
| finds_deeper n node inc incnode :
    deps !! n = Some node → inc ∈ includes node →
    deps !! inc = Some incnode →
    isSystem (Location_path (fileId incnode)) = false →
    activeBufferType server (fileId incnode) = Inactive →
    finds_active inc →
    finds_active n.

End spec.

(** An instance: files 1 ([/src/a.cpp]) and 2 ([/src/b.h]); a path is a
    system path when it starts with [/usr/]. *)
Definition example_path (f : N) : Path :=
  if (f =? 1)%N then "/src/a.cpp" else if (f =? 2)%N then "/src/b.h" else "".

Definition example_isSystem (p : Path) : bool := String_h.startsWith "/usr/" p.

Definition node (f : N) (incs : list N) : DependencyNode :=
  {| fileId := f; includes := incs |}.

(** [a.cpp] includes [b.h], which includes nothing. *)
Definition leaf_graph : gmap N DependencyNode :=
  {[1%N := node 1 [2%N]; 2%N := node 2 []]}.

(** [a.cpp] includes [b.h], which includes a third file. *)
Definition chain_graph : gmap N DependencyNode :=
  {[1%N := node 1 [2%N]; 2%N := node 2 [3%N]; 3%N := node 3 []]}.

(** [a.cpp] and [b.h] include each other. *)
Definition cyclic_graph : gmap N DependencyNode :=
  {[1%N := node 1 [2%N]; 2%N := node 2 [1%N]]}.

Definition example_project (deps : gmap N DependencyNode) : Project :=
  {| mPath := "/p/"; mVisitedFiles := ∅; mActiveJobs := ∅; mDependencies := deps |}.

Definition example_options : Options :=
  {| options := λ _, false; sandboxRoot := ""; socketFile := "/tmp/rdm";
     dataDir := "/tmp/rtags"; defaultArguments := []; includePaths := [];
     defines := ∅; blockedArguments := ∅; debugLocations := [];
     rpVisitFileTimeout := 60000; rpIndexDataMessageTimeout := 60000;
     rpConnectTimeout := 0; rpConnectAttempts := 3; rpNiceValue := 0 |}.

(** A server that knows the project, has no focused project, and where
    only the buffer of [b.h] is Active. *)
Definition example_server (deps : gmap N DependencyNode) : Server :=
  {| activeBufferType := λ f, if (f =? 2)%N then Active else Inactive;
     projects := {["/p/" := example_project deps]};
     currentProject := None;
     serverOptions := example_options |}.

Definition example_source (f : N) (args : list string) : Source_h.Source :=
  {| Source_h.fileId := f; Source_h.arguments := args;
     Source_h.includePaths := []; Source_h.defines := ∅ |}.

(** A fresh job for [a.cpp], no flag set. *)
Definition example_job : IndexerJob :=
  {| id := 1; sources := [example_source 1 ["-c"]]; sourceFile := "/src/a.cpp";
     flags := λ _, false; project := "/p/"; unsavedFiles := ∅;
     visited := {[1%N]}; crashCount := 0; mCachedPriority := INT_MIN |}.

End Priority.

(** * The traversal of [priority()] with a record of its calls *)

Module Traced.
Import IndexerJob_h Project_h Server_h.

Section traced.
Variable Location_path : N → Path.
Variable isSystem : Path → bool.
Variable server : Server.
Variable deps : gmap N DependencyNode.

(** [IndexerJob_cpp.for_includes], returning also the nodes the closure
    was called on, in the order of the calls. *)
Fixpoint for_includes_traced (call : N → gset N → outcome (bool * gset N * list N))
    (n : DependencyNode) (incs : list N) (seen : gset N) {struct incs}
    : outcome (bool * gset N * list N) :=
  match incs with
  | [] => Ok (false, seen, [])
  | inc :: incs' =>
      if bool_decide (inc ∈ seen) then for_includes_traced call n incs' seen
      else
        let seen1 := {[inc]} ∪ seen in
        if isSystem (Location_path (fileId n)) then for_includes_traced call n incs' seen1
        else if negb (bool_decide (activeBufferType server (fileId n) = Inactive))
        then Ok (true, seen1, [])
        else
          r ←' call inc seen1;
          if r.1.1 then Ok (true, r.1.2, r.2)
          else
            r' ←' for_includes_traced call n incs' r.1.2;
            Ok (r'.1, r.2 ++ r'.2)
  end.

(** [IndexerJob_cpp.func], returning also the nodes it was called on. *)
Fixpoint func_traced (fuel : nat) (n : N) (seen : gset N) {struct fuel}
    : outcome (bool * gset N * list N) :=
  match fuel with
  | O => OutOfFuel
  | S fuel' =>
      match deps !! n with
      | None => Ok (false, seen, [n])
      | Some node =>
          r ←' for_includes_traced (func_traced fuel') node (includes node) seen;
          Ok (r.1, n :: r.2)
      end
  end.

End traced.
End Traced.

(** Further instances for [priority()]. *)

Module PriorityExamples.
Import IndexerJob_h Project_h Server_h Priority.

(** [a.cpp] and [b.h] include each other and [b.h] includes a third
    file, the only one whose buffer is Active. *)
Definition cycle_then_leaf : gmap N DependencyNode :=
  {[1%N := node 1 [2%N]; 2%N := node 2 [1%N; 3%N]; 3%N := node 3 []]}.

Definition third_active (deps : gmap N DependencyNode) : Server :=
  {| activeBufferType := λ f, if (f =? 3)%N then Active else Inactive;
     projects := {["/p/" := example_project deps]};
     currentProject := Some "/p/";
     serverOptions := example_options |}.

End PriorityExamples.

(** * Statements about the constructor of [IndexerJob] *)

Module Constructor.
Import IndexerJob_h Project_h.

Section kept.
Variable compareArguments : Source_h.Source → Source_h.Source → bool.

(** Position [i] of the input [s] is a first occurrence: no entry before
    it is argument-equal to the entry at [i]. *)
Definition first_occurrence (s : list Source_h.Source) (i : nat) : Prop :=
  ∀ x i' y, s !! i = Some x → i' < i → s !! i' = Some y → compareArguments x y = false.

(** [sources] holds the entries of [s] at the positions [pos], which
    increase and are exactly the first occurrences; every entry of [s] is,
    or is argument-equal to, a kept one; a kept entry is not argument-equal
    to one kept before it. *)
Definition kept_at (s : list Source_h.Source) (pos : list nat)
    (sources : list Source_h.Source) : Prop :=
  StronglySorted lt pos
  ∧ Forall2 (λ i x, s !! i = Some x) pos sources
  ∧ (∀ i, i < length s → (i ∈ pos ↔ first_occurrence s i))
  ∧ (∀ y, y ∈ s → ∃ z, z ∈ sources ∧ (y = z ∨ compareArguments y z = true))
  ∧ (∀ i j a b, i < j → sources !! i = Some a → sources !! j = Some b →
       compareArguments b a = false).

End kept.

(** An instance of [Source::compareArguments]: the argument lists are
    equal. *)
Definition same_arguments (a b : Source_h.Source) : bool :=
  bool_decide (Source_h.arguments a = Source_h.arguments b).

(** Three compile commands for file 1, the third a repetition of the
    first. *)
Definition three_sources : list Source_h.Source :=
  [Priority.example_source 1 ["-c"; "-O2"];
   Priority.example_source 1 ["-c"; "-g"];
   Priority.example_source 1 ["-c"; "-O2"]].

End Constructor.

(** * Statements about [IndexerJob::encode] *)

Module Encoding.
Import IndexerJob_h Project_h Server_h.

(** Neither of the two flags occurs in [args]. *)
Definition clean (args : list string) : Prop :=
  ("-Werror" ∉ args) ∧ ("-Wfatal-errors" ∉ args).

(** [x] occurs at one position of [l] at most. *)
Definition at_most_once (x : string) (l : list string) : Prop :=
  ∀ i j, l !! i = Some x → l !! j = Some x → i = j.

(** The options of [Priority.example_options] with other default
    arguments. *)
Definition options_with_defaults (defaults : list string) : Options :=
  {| options := λ _, false; sandboxRoot := ""; socketFile := "/tmp/rdm";
     dataDir := "/tmp/rtags"; defaultArguments := defaults; includePaths := [];
     defines := ∅; blockedArguments := ∅; debugLocations := [];
     rpVisitFileTimeout := 60000; rpIndexDataMessageTimeout := 60000;
     rpConnectTimeout := 0; rpConnectAttempts := 3; rpNiceValue := 0 |}.

Definition server_with_defaults (defaults : list string) : Server :=
  {| activeBufferType := λ _, Inactive;
     projects := {["/p/" := Priority.example_project ∅]};
     currentProject := None;
     serverOptions := options_with_defaults defaults |}.

(** A job for [a.cpp] with the arguments [args]. *)
Definition job_with_arguments (args : list string) : IndexerJob :=
  {| id := 1; sources := [Priority.example_source 1 args];
     sourceFile := "/src/a.cpp"; flags := λ _, false; project := "/p/";
     unsavedFiles := ∅; visited := {[1%N]}; crashCount := 0;
     mCachedPriority := INT_MIN |}.

(** Instances for the collaborators of [encode]: a compiler manager and a
    PCH substitution that leave the source alone. *)
Definition no_applyToSource (s : Source_h.Source) : Source_h.Source := s.
Definition no_fixPCH (_ : Project) (s : Source_h.Source) : Source_h.Source := s.

End Encoding.

(** * Instances for the symbol listing *)

Module Listing.
Import Project_h String_h ListSymbolsJob_cpp.

(** A store for [/src/a.cpp] (file 1) with one symbol, the function
    [foo(int)]; no name is a function-pointer variable and no kind or path
    filter is set. *)
Definition the_project : Project := Priority.example_project ∅.

Definition no_function_variable (_ : string) : bool := false.
Definition any_kind (_ : Symbol) : bool := true.
Definition any_path (_ : Path) : bool := true.

Definition fileId_of (p : Path) : N :=
  if bool_decide (p = "/src/a.cpp") then 1%N else 0%N.

Definition path_of (f : N) : Path :=
  if (f =? 1)%N then "/src/a.cpp" else "".

Definition is_a_cpp (p : Path) : bool := bool_decide (p = "/src/a.cpp").

Definition foo_int : Symbol := {| symbolName := "foo(int)"; kind := 8 |}.

Definition symbols_of (_ : Project) (f : N) : option (list Symbol) :=
  if (f =? 1)%N then Some [foo_int] else None.

Definition symbol_at (_ : Project) (_ : Location) : Symbol := foo_int.

(** What [findSymbols] hands to its callback for a pattern that
    [foo(int)] matches. *)
Definition names_of (_ : Project) (_ : string) (_ : QueryFlag → bool)
    : list (string * list Location) :=
  [("foo(int)", [{| loc_fileId := 1; loc_offset := 10 |}])].

(** The query [foo*] with wildcard matching and no other flag, scoped by
    [filters]. *)
Definition foo_query (filters : list PathFilter) : ListSymbolsJob :=
  {| string_ := "foo*";
     queryFlags := λ f, match f with WildcardSymbolNames => true | _ => false end;
     pathFilters := filters;
     project := Some the_project |}.

(** The query [f?o] with wildcard matching. *)
Definition f_o_query : ListSymbolsJob :=
  {| string_ := "f?o";
     queryFlags := λ f, match f with WildcardSymbolNames => true | _ => false end;
     pathFilters := [];
     project := Some the_project |}.

Definition run (job : ListSymbolsJob) : outcome (Z * list Written * ListSymbolsJob) :=
  execute matchSymbolName_glob no_function_variable any_kind false false
    any_path fileId_of path_of is_a_cpp symbols_of symbol_at names_of job.

End Listing.

(** Further instances: every file under [/usr/include/]. *)

Module SystemExamples.
Import Project_h.

Definition system_path (f : N) : Path :=
  if (f =? 1)%N then "/usr/include/a.h" else "/usr/include/b.h".

End SystemExamples.

(** * Statements about the symbol listing *)

Module ListingStatements.
Import String_h ListSymbolsJob_cpp.

(** No name of the set holds an opening parenthesis. *)
Definition bare (out : gset string) : Prop :=
  ∀ s, s ∈ out → contains_char "(" s = false.

(** [symbol] gets through the tests of the path-filtered scan. *)
Definition listed (matchSymbolName : string → string → CaseSensitivity → bool)
    (filterKind : Symbol → bool) (job : ListSymbolsJob) (symbol : Symbol) : Prop :=
  filterKind symbol = true ∧ symbolName symbol ≠ ""
  ∧ nameMatches matchSymbolName job (symbolName symbol) = true.

(** The query [foo*] of [Listing.foo_query] with the flags [flags]. *)
Definition foo_query_with (flags : QueryFlag → bool) (filters : list PathFilter)
    : ListSymbolsJob :=
  {| string_ := "foo*"; queryFlags := flags; pathFilters := filters;
     project := Some Listing.the_project |}.

Definition stripping (f : QueryFlag) : bool :=
  match f with WildcardSymbolNames | StripParentheses => true | _ => false end.

Definition reversed (f : QueryFlag) : bool :=
  match f with WildcardSymbolNames | ReverseSort => true | _ => false end.

End ListingStatements.

(** Further instances for [encode]: defines in the options and in the
    source. *)

Module DefineExamples.
Import IndexerJob_h Project_h Server_h.

(** Options whose defines are [NDEBUG], [NDEBUG=1] and [FOO]. *)
Definition options_with_defines : Options :=
  {| options := λ _, false; sandboxRoot := ""; socketFile := "/tmp/rdm";
     dataDir := "/tmp/rtags"; defaultArguments := []; includePaths := [];
     defines := {[("NDEBUG", ""); ("NDEBUG", "1"); ("FOO", "")]};
     blockedArguments := ∅; debugLocations := [];
     rpVisitFileTimeout := 60000; rpIndexDataMessageTimeout := 60000;
     rpConnectTimeout := 0; rpConnectAttempts := 3; rpNiceValue := 0 |}.

Definition server_with_defines : Server :=
  {| activeBufferType := λ _, Inactive;
     projects := {["/p/" := Priority.example_project ∅]};
     currentProject := None;
     serverOptions := options_with_defines |}.

(** A job for [a.cpp] whose source defines [NDEBUG] and [BAR] itself. *)
Definition job_with_defines : IndexerJob :=
  {| id := 1;
     sources := [{| Source_h.fileId := 1; Source_h.arguments := ["-c"];
                    Source_h.includePaths := [];
                    Source_h.defines := {[("NDEBUG", ""); ("BAR", "")]} |}];
     sourceFile := "/src/a.cpp"; flags := λ _, false; project := "/p/";
     unsavedFiles := ∅; visited := {[1%N]}; crashCount := 0;
     mCachedPriority := INT_MIN |}.

End DefineExamples.

(** * Properties *)

Section outcome_facts.
Context {A B : Type}.

Lemma obind_Ok (m : outcome A) (k : A → outcome B) (b : B) :
  obind m k = Ok b ↔ ∃ a, m = Ok a ∧ k a = Ok b.
Proof.
  destruct m; simpl; split; try (intros [? [? ?]]); try discriminate; eauto.
  intros. simplify_eq. done.
Qed.

End outcome_facts.

Lemma isEmpty_false s : isEmpty s = false ↔ s ≠ "".
Proof. unfold isEmpty. by rewrite bool_decide_eq_false. Qed.

Section visitFile_facts.
Import IndexerJob_h Project_h Claims.

Lemma set_mVisitedFiles_id proj : set_mVisitedFiles (mVisitedFiles proj) proj = proj.
Proof. by destruct proj. Qed.

(** A call on a recorded identifier changes nothing and answers [false]. *)
Lemma visitFile_recorded f path key proj heap :
  f ≠ 0%N → recorded proj f →
  visitFile f path key (proj, heap) = Ok (false, (proj, heap)).
Proof.
  intros Hf (p & Hp & Hne). unfold visitFile.
  apply N.eqb_neq in Hf as ->. simpl.
  unfold subscript. rewrite Hp.
  apply isEmpty_false in Hne as ->.
  by rewrite set_mVisitedFiles_id.
Qed.

(** A call on an identifier without a recorded path claims it. *)
Lemma visitFile_fresh f path key proj heap :
  f ≠ 0%N → ¬ recorded proj f → chargeable (proj, heap) key →
  ∃ heap',
    visitFile f path key (proj, heap)
    = Ok (true, (set_mVisitedFiles (<[f := path]> (mVisitedFiles proj)) proj, heap'))
    ∧ (key = 0%N → heap' = heap)
    ∧ (∀ addr job, mActiveJobs proj !! key = Some (Some addr) → key ≠ 0%N →
         heap !! addr = Some job →
         heap' = <[addr := set_visited ({[f]} ∪ visited job) job]> heap).
Proof.
  intros Hf Hnr Hk. unfold visitFile.
  apply N.eqb_neq in Hf as ->. simpl.
  assert (∃ files, subscript (mVisitedFiles proj) f = (files, "")
                   ∧ <[f := path]> files = <[f := path]> (mVisitedFiles proj))
    as (files & -> & ->).
  { unfold subscript. destruct (mVisitedFiles proj !! f) as [p|] eqn:Hp.
    - destruct (decide (p = "")) as [->|Hne]; [eauto|].
      destruct Hnr. by exists p.
    - eexists; split; [done|]. by rewrite insert_insert_eq. }
  simpl. destruct (N.eqb_spec key 0%N) as [->|Hkey]; simpl.
  - eexists; split; [done|]. split; [done|]. intros; done.
  - destruct Hk as [?|(addr & job & Hreg & Hjob)]; [done|]. simpl in *.
    rewrite Hreg, bool_decide_true by eauto. simpl. rewrite Hjob.
    eexists; split; [done|]. split; [done|].
    intros ?? ? _ ?. by simplify_eq.
Qed.

End visitFile_facts.

Section claim_facts.
Import IndexerJob_h Project_h Claims.

(** What a call of [visitFile] that returns has done. *)
Lemma visitFile_Ok_inv f path key proj heap b st' :
  visitFile f path key (proj, heap) = Ok (b, st') →
  f ≠ 0%N ∧
  ((b = false ∧ recorded proj f ∧ st' = (proj, heap))
   ∨ (b = true ∧ ¬ recorded proj f
      ∧ st'.1 = set_mVisitedFiles (<[f := path]> (mVisitedFiles proj)) proj
      ∧ ((key = 0%N ∧ st'.2 = heap)
         ∨ (∃ addr job,
              key ≠ 0%N
              ∧ mActiveJobs proj !! key = Some (Some addr) ∧ heap !! addr = Some job
              ∧ st'.2 = <[addr := set_visited ({[f]} ∪ visited job) job]> heap)))).
Proof.
  intros Hcall.
  destruct (N.eq_dec f 0%N) as [->|Hf]; [done|]. split; [done|].
  destruct (mVisitedFiles proj !! f) as [p|] eqn:Hp;
    [destruct (decide (p = "")) as [->|Hne]|].
  2:{ left. rewrite visitFile_recorded in Hcall by (done || by exists p).
      simplify_eq. split; [done|]. split; [by exists p|done]. }
  all: assert (¬ recorded proj f) as Hnr
    by (intros (q & Hq & Hqne); congruence).
  all: right; revert Hcall; unfold visitFile;
    apply N.eqb_neq in Hf as ->; simpl; unfold subscript; rewrite Hp; simpl.
  all: rewrite ?insert_insert_eq.
  all: destruct (N.eqb_spec key 0%N) as [->|Hkey]; simpl;
    [intros; simplify_eq; simpl; eauto 10|].
  all: destruct (mActiveJobs proj !! key) as [[addr|]|] eqn:Hreg; simpl;
    rewrite ?bool_decide_true by eauto; simpl; try done.
  all: destruct (heap !! addr) as [job|] eqn:Hjob; [|done].
  all: intros; simplify_eq; simpl; eauto 15.
Qed.

Lemma lookup_release (fileIds : gset N) proj (f : N) :
  mVisitedFiles (releaseFileIds fileIds proj) !! f
  = if decide (f ∈ fileIds) then None else mVisitedFiles proj !! f.
Proof.
  unfold releaseFileIds. case_bool_decide as Hemp.
  - subst. by rewrite decide_False by set_solver.
  - simpl. clear Hemp.
    set (P := λ (r : gmap N string) (X : gset N),
                ∀ g, r !! g = if decide (g ∈ X) then None else mVisitedFiles proj !! g).
    assert (∀ X, P (set_fold (λ g m, delete g m) (mVisitedFiles proj) X) X) as HP;
      [|apply HP].
    apply set_fold_ind_L; unfold P.
    + intros g. by rewrite decide_False by set_solver.
    + intros x X r Hx IH g. destruct (decide (g = x)) as [->|Hne].
      * rewrite lookup_delete_eq. by rewrite decide_True by set_solver.
      * rewrite lookup_delete_ne by done. rewrite IH.
        destruct (decide (g ∈ X)); [by rewrite decide_True by set_solver|].
        by rewrite decide_False by set_solver.
Qed.

Lemma releaseFileIds_registry fileIds proj :
  mActiveJobs (releaseFileIds fileIds proj) = mActiveJobs proj.
Proof. unfold releaseFileIds. by case_bool_decide. Qed.

Lemma recorded_insert proj f path g :
  path ≠ "" → (g = f ∨ recorded proj g) →
  recorded (set_mVisitedFiles (<[f := path]> (mVisitedFiles proj)) proj) g.
Proof.
  intros Hpath Hg. unfold recorded. simpl.
  destruct (decide (g = f)) as [->|Hne].
  - exists path. by rewrite lookup_insert_eq.
  - destruct Hg as [?|(p & ? & ?)]; [done|].
    exists p. by rewrite lookup_insert_ne.
Qed.

(** Both invariants survive a claim that carries a path and spares the
    files other jobs started with. *)
Lemma visitFile_preserves init f path key st b st' :
  path ≠ "" →
  (∀ a, held_at init a f →
        key = 0%N ∨ mActiveJobs st.1 !! key = Some (Some a) ∨ recorded st.1 f) →
  visitFile f path key st = Ok (b, st') →
  exclusive st ∧ claims_accounted init st →
  exclusive st' ∧ claims_accounted init st'.
Proof.
  intros Hpath Hspare Hcall [Hex Hacc]. destruct st as [proj heap].
  apply visitFile_Ok_inv in Hcall
    as (Hf & [(-> & _ & ->)|(-> & Hnr & Hproj & Hheap)]); [done|].
  destruct st' as [proj' heap']. simpl in *. subst proj'.
  destruct Hheap as [[-> ->]|(addr & job & Hkey & Hreg & Hjob & ->)].
  - split.
    + intros g a1 j1 a2 j2 [H1 ?] [H2 ?]. apply Hex; by split.
    + intros g a j [H1 ?] Hg.
      destruct (Hacc g a j) as [Hrec|Hheld]; [by split|done| |by right].
      left. apply recorded_insert; [done|by right].
  - assert (∀ a j,
        activeJob (set_mVisitedFiles (<[f := path]> (mVisitedFiles proj)) proj,
                   <[addr := set_visited ({[f]} ∪ visited job) job]> heap) a j →
        (a = addr ∧ visited j = {[f]} ∪ visited job ∧ activeJob (proj, heap) addr job)
        ∨ (a ≠ addr ∧ activeJob (proj, heap) a j)) as Hact.
    { intros a j [Hk Hj]. simpl in *. destruct (decide (a = addr)) as [->|Hne].
      - rewrite lookup_insert_eq in Hj. simplify_eq. left. repeat split; eauto.
      - rewrite lookup_insert_ne in Hj by done. right. by repeat split. }
    assert (∀ a j, a ≠ addr → activeJob (proj, heap) a j → f ∉ visited j) as Hfresh.
    { intros a j Hne Ha Hin.
      destruct (Hacc f a j Ha Hin) as [Hrec|Hheld]; [done|].
      destruct (Hspare a Hheld) as [?|[Hk|?]]; [done| |done].
      rewrite Hreg in Hk. by simplify_eq. }
    split.
    + intros g a1 j1 a2 j2 H1 H2 Hg1 Hg2.
      apply Hact in H1 as [(-> & Hv1 & Hj1)|[Hne1 H1]];
        apply Hact in H2 as [(-> & Hv2 & Hj2)|[Hne2 H2]];
        [done| | |by apply (Hex g a1 j1 a2 j2)].
      * rewrite Hv1 in Hg1. apply elem_of_union in Hg1 as [Hg1|Hg1];
          [|by apply (Hex g addr job a2 j2)].
        apply elem_of_singleton in Hg1 as ->.
        by destruct (Hfresh a2 j2).
      * rewrite Hv2 in Hg2. apply elem_of_union in Hg2 as [Hg2|Hg2];
          [|by apply (Hex g a1 j1 addr job)].
        apply elem_of_singleton in Hg2 as ->.
        by destruct (Hfresh a1 j1).
    + intros g a j H Hg. simpl.
      apply Hact in H as [(-> & Hv & Hj)|[Hne H]].
      * rewrite Hv in Hg. apply elem_of_union in Hg as [Hg|Hg].
        -- left. apply recorded_insert; [done|]. left. by apply elem_of_singleton in Hg.
        -- destruct (Hacc g addr job Hj Hg) as [?|?]; [|by right].
           left. apply recorded_insert; [done|by right].
      * destruct (Hacc g a j H Hg) as [?|?]; [|by right].
        left. apply recorded_insert; [done|by right].
Qed.

(** Both invariants survive a release of identifiers nobody holds. *)
Lemma releaseFileIds_preserves init fileIds proj heap :
  (∀ f a j, f ∈ fileIds → activeJob (proj, heap) a j → f ∉ visited j) →
  exclusive (proj, heap) ∧ claims_accounted init (proj, heap) →
  exclusive (releaseFileIds fileIds proj, heap)
  ∧ claims_accounted init (releaseFileIds fileIds proj, heap).
Proof.
  intros Hfree [Hex Hacc].
  assert (∀ a j, activeJob (releaseFileIds fileIds proj, heap) a j →
                 activeJob (proj, heap) a j) as Hact.
  { intros a j [Hk Hj]. simpl in *. by rewrite releaseFileIds_registry in Hk. }
  split.
  - intros g a1 j1 a2 j2 H1 H2. apply Hex; by apply Hact.
  - intros g a j H Hg. apply Hact in H.
    destruct (Hacc g a j H Hg) as [(p & Hp & Hne)|?]; [|by right].
    left. exists p. split; [|done]. simpl. rewrite lookup_release.
    rewrite decide_False; [done|]. intros Hin. by eapply Hfree.
Qed.

Lemma guarded_step_preserves init st st' :
  guarded_step init st st' →
  exclusive st ∧ claims_accounted init st →
  exclusive st' ∧ claims_accounted init st'.
Proof.
  destruct 1 as [f path key st b st' Hpath Hspare Hcall|fileIds proj heap Hfree].
  - by eapply visitFile_preserves.
  - by apply releaseFileIds_preserves.
Qed.

Lemma guarded_steps_preserve init st st' :
  rtc (guarded_step init) st st' →
  exclusive st ∧ claims_accounted init st →
  exclusive st' ∧ claims_accounted init st'.
Proof.
  induction 1 as [st|st1 st2 st3 Hstep _ IH]; [done|].
  intros Hinv. by apply IH, (guarded_step_preserves init st1 st2).
Qed.

Lemma claims_accounted_start init : claims_accounted init init.
Proof. intros f a j Ha Hf. right. by exists j. Qed.

End claim_facts.

Section claim_examples.
Import IndexerJob_h Project_h Claims.

(** What the two jobs start with: their primary files. *)
Lemma two_jobs_held a f :
  held_at two_jobs a f → (a = 1%N ∧ f = 1%N) ∨ (a = 2%N ∧ f = 2%N).
Proof.
  intros (job & [_ Hj] & Hf). unfold two_jobs in Hj. simpl in Hj.
  apply lookup_insert_Some in Hj as [[<- <-]|[_ Hj]].
  - left. split; [done|]. simpl in Hf. by apply elem_of_singleton in Hf.
  - apply lookup_singleton_Some in Hj as [<- <-].
    right. split; [done|]. simpl in Hf. by apply elem_of_singleton in Hf.
Qed.

Lemma two_jobs_exclusive : exclusive two_jobs.
Proof.
  intros f a1 j1 a2 j2 [_ H1] [_ H2] Hf1 Hf2.
  unfold two_jobs in H1, H2. simpl in H1, H2.
  apply lookup_insert_Some in H1 as [[<- <-]|[? H1]];
    apply lookup_insert_Some in H2 as [[<- <-]|[? H2]]; try done.
  - apply lookup_singleton_Some in H2 as [<- <-]. set_solver.
  - apply lookup_singleton_Some in H1 as [<- <-]. set_solver.
  - apply lookup_singleton_Some in H1 as [<- <-].
    by apply lookup_singleton_Some in H2 as [<- <-].
Qed.

End claim_examples.

Import IndexerJob_h Project_h Claims.

(** C1. For a file identifier [f] (not the null identifier [0]): when a
    path is recorded for [f], a call [visitFile f path2 key], whatever
    [path2] and [key], returns [false] and leaves the project, so the
    visited map and the path stored for [f], and the jobs as they were;
    when [f] is not in the visited map, the first call, on behalf of no job
    or of a registered one, returns [true] and stores its path for [f],
    after which (the path not being empty) every further call returns
    [false] and changes nothing. *)
Theorem visitFile_first_claim_wins (proj : Project) (heap : gmap N IndexerJob) (f : N) :
  f ≠ 0%N →
  (recorded proj f →
     ∀ path2 key, visitFile f path2 key (proj, heap) = Ok (false, (proj, heap)))
  ∧ (mVisitedFiles proj !! f = None →
     ∀ path key, chargeable (proj, heap) key →
       ∃ st', visitFile f path key (proj, heap) = Ok (true, st')
              ∧ mVisitedFiles st'.1 = <[f := path]> (mVisitedFiles proj)
              ∧ (path ≠ "" →
                 ∀ path2 key2, visitFile f path2 key2 st' = Ok (false, st'))).
Proof.
  intros Hf. split.
  - intros Hrec path2 key. by apply visitFile_recorded.
  - intros Hnone path key Hkey.
    destruct (visitFile_fresh f path key proj heap) as (heap' & Hcall & _); [done| |done|].
    { intros (p & Hp & _). congruence. }
    eexists. split; [exact Hcall|]. split; [done|].
    intros Hpath path2 key2. apply visitFile_recorded; [done|].
    exists path. split; [|done]. simpl. by rewrite lookup_insert_eq.
Qed.

Lemma visitFile_first_claim_wins_witness :
  ∃ st', visitFile 3 "/c.h" 10 two_jobs = Ok (true, st')
         ∧ mVisitedFiles st'.1 !! 3%N = Some "/c.h"
         ∧ visitFile 3 "/d.h" 20 st' = Ok (false, st').
Proof.
  destruct (visitFile_first_claim_wins two_jobs.1 two_jobs.2 3) as [_ Hfirst];
    [done|].
  destruct (Hfirst eq_refl "/c.h" 10%N) as (st' & Hcall & Hmap & Hsecond).
  { right. exists 1%N, (job_of 1 1). split; reflexivity. }
  exists st'. split; [exact Hcall|]. split.
  - rewrite Hmap. apply lookup_insert_eq.
  - by apply Hsecond.
Defined.

(** C2, as stated, fails: from an empty visited map and two active jobs
    that hold one file each, job 10 claims file 3, file 3 is released, and
    job 20 claims it too; file 3 is then in the [visited] set of both. *)
Lemma exclusive_claims_counterexample :
  mVisitedFiles two_jobs.1 = ∅ ∧ exclusive two_jobs
  ∧ ∃ st, rtc step two_jobs st ∧ ¬ exclusive st.
Proof.
  split; [done|]. split; [apply two_jobs_exclusive|].
  eexists. split.
  - eapply rtc_l; [apply (step_visit 3 "/c.h" 10 _ true); reflexivity|].
    eapply rtc_l; [apply (step_release {[3%N]})|].
    eapply rtc_l; [apply (step_visit 3 "/c.h" 20 _ true); reflexivity|].
    apply rtc_refl.
  - intros Hex.
    specialize (Hex 3%N 1%N (set_visited ({[3%N]} ∪ {[1%N]}) (job_of 1 1))
                    2%N (set_visited ({[3%N]} ∪ {[2%N]}) (job_of 2 2))).
    assert (1%N = 2%N) as Habs; [|done].
    apply Hex.
    + split; [by exists 10%N|reflexivity].
    + split; [by exists 20%N|reflexivity].
    + simpl. set_solver.
    + simpl. set_solver.
Qed.

(** C2, amended.  Start from a state [init] in which claiming is
    exclusive, such as an empty visited map with active jobs whose
    [visited] sets hold their distinct primary files.  Let the calls of
    [visitFile] carry a non-empty path, let a file that a job held in
    [init] be claimed, for as long as no path is recorded for it, only on
    behalf of that job or of no job, and let the calls of [releaseFileIds]
    give back only identifiers that no active job holds, the registry of
    active jobs being fixed.  Then in every state reached each file
    identifier is in the [visited] set of at most one active job. *)
Theorem exclusive_claims_guarded (init st : Project * gmap N IndexerJob) :
  exclusive init →
  rtc (guarded_step init) init st → exclusive st.
Proof.
  intros Hex Hsteps.
  destruct (guarded_steps_preserve init init st Hsteps) as [Hst _]; [|done].
  split; [done|]. apply claims_accounted_start.
Qed.

Lemma exclusive_claims_guarded_witness :
  ∃ st1 st2,
    visitFile 1 "/src/a.cpp" 10 two_jobs = Ok (true, st1)
    ∧ visitFile 3 "/c.h" 10 st1 = Ok (true, st2)
    ∧ visitFile 3 "/c.h" 20 st2 = Ok (false, st2)
    ∧ visitFile 1 "/src/a.cpp" 20 st2 = Ok (false, st2)
    ∧ exclusive (releaseFileIds {[7%N]} st2.1, st2.2).
Proof.
  eexists _, _. split; [reflexivity|]. split; [reflexivity|].
  split; [reflexivity|]. split; [reflexivity|].
  apply (exclusive_claims_guarded two_jobs); [apply two_jobs_exclusive|].
  eapply rtc_l.
  { apply (guarded_visit two_jobs 1 "/src/a.cpp" 10 _ true); [done| |reflexivity].
    intros a Ha. destruct (two_jobs_held a 1 Ha) as [[-> _]|[_ ?]]; [|done].
    right. left. reflexivity. }
  eapply rtc_l.
  { apply (guarded_visit two_jobs 3 "/c.h" 10 _ true); [done| |reflexivity].
    intros a Ha. by destruct (two_jobs_held a 3 Ha) as [[_ ?]|[_ ?]]. }
  eapply rtc_l.
  { apply (guarded_visit two_jobs 3 "/c.h" 20 _ false); [done| |reflexivity].
    intros a Ha. by destruct (two_jobs_held a 3 Ha) as [[_ ?]|[_ ?]]. }
  eapply rtc_l.
  { apply (guarded_visit two_jobs 1 "/src/a.cpp" 20 _ false); [done| |reflexivity].
    intros a Ha. right. right. exists "/src/a.cpp". split; [reflexivity|done]. }
  eapply rtc_l; [|apply rtc_refl].
  apply (guarded_release two_jobs {[7%N]}).
  intros f a j Hf [_ Hj] Hin. apply elem_of_singleton in Hf as ->. simpl in Hj.
  apply lookup_insert_Some in Hj as [[<- <-]|[_ Hj]]; [simpl in Hin; set_solver|].
  apply lookup_insert_Some in Hj as [[<- <-]|[_ Hj]]; [simpl in Hin; set_solver|].
  apply lookup_insert_Some in Hj as [[<- <-]|[_ Hj]]; [simpl in Hin; set_solver|].
  apply lookup_singleton_Some in Hj as [<- <-]. simpl in Hin. set_solver.
Defined.

Import Server_h IndexerJob_cpp Priority.

Example priority_leaf_graph :
  priority example_path example_isSystem (example_server leaf_graph) example_job
  = Ok (0%Z, set_mCachedPriority 0 example_job).
Proof. reflexivity. Qed.

Example priority_cyclic_graph :
  priority example_path example_isSystem (example_server cyclic_graph) example_job
  = Ok (0%Z, set_mCachedPriority 0 example_job).
Proof. reflexivity. Qed.

Example priority_chain_graph :
  priority example_path example_isSystem (example_server chain_graph) example_job
  = Ok (2%Z, set_mCachedPriority 2 example_job).
Proof. reflexivity. Qed.

Section traversal.
Variable Location_path : N → Path.
Variable isSystem : Path → bool.
Variable server : Server.
Variable deps : gmap N DependencyNode.

Lemma unseen_mono (seen seen' : gset N) :
  seen ⊆ seen' → size (dom deps ∖ seen') ≤ size (dom deps ∖ seen).
Proof. intros. apply subseteq_size. set_solver. Qed.

Lemma unseen_insert (inc : N) (seen : gset N) :
  inc ∉ seen → is_Some (deps !! inc) →
  size (dom deps ∖ ({[inc]} ∪ seen)) < size (dom deps ∖ seen).
Proof.
  intros Hinc Hsome. apply subset_size. apply elem_of_dom in Hsome.
  split; [set_solver|]. intros Hsub.
  assert (inc ∈ dom deps ∖ ({[inc]} ∪ seen)) by set_solver. set_solver.
Qed.

(** With two units of fuel more than there are unseen nodes the closure
    returns, and what was seen stays seen. *)
Lemma func_returns (fuel : nat) (n : N) (seen : gset N) :
  size (dom deps ∖ seen) + 2 ≤ fuel →
  ∃ b seen', func Location_path isSystem server deps fuel n seen = Ok (b, seen')
             ∧ seen ⊆ seen'.
Proof.
  revert n seen. induction fuel as [|fuel IH]; intros n seen Hfuel; [lia|].
  simpl. destruct (deps !! n) as [node|]; [|by eauto].
  generalize (includes node). intros incs. revert seen Hfuel.
  induction incs as [|inc incs IHincs]; intros seen Hfuel; [by eauto|].
  assert (∀ seen1 : gset N, seen ⊆ seen1 →
            ∃ b seen',
              for_includes Location_path isSystem server
                (func Location_path isSystem server deps fuel) node incs seen1
              = Ok (b, seen') ∧ seen ⊆ seen') as Hrest.
  { intros seen1 Hsub. destruct (IHincs seen1) as (b & seen' & Heq & Hsub').
    - pose proof (unseen_mono seen seen1 Hsub). lia.
    - exists b, seen'. split; [done|]. set_solver. }
  simpl. case_bool_decide as Hseen; [by apply Hrest|].
  destruct (isSystem _); [apply Hrest; set_solver|].
  destruct (negb _).
  { eexists _, _. split; [done|]. set_solver. }
  assert (∃ b s, func Location_path isSystem server deps fuel inc ({[inc]} ∪ seen) = Ok (b, s)
                 ∧ {[inc]} ∪ seen ⊆ s) as (b & s & -> & Hs).
  { destruct (deps !! inc) as [incnode|] eqn:Hinc.
    - apply IH. pose proof (unseen_insert inc seen Hseen (mk_is_Some _ _ Hinc)). lia.
    - destruct fuel as [|fuel']; [lia|]. simpl. rewrite Hinc. by eauto. }
  simpl. destruct b.
  - eexists _, _. split; [done|]. set_solver.
  - apply Hrest. set_solver.
Qed.

Lemma func_returns_in_bound (n : N) (seen : gset N) :
  ∃ b seen',
    func Location_path isSystem server deps (depth_bound deps) n seen = Ok (b, seen')
    ∧ seen ⊆ seen'.
Proof.
  apply func_returns. unfold depth_bound.
  assert (size (dom deps ∖ seen) ≤ size deps); [|lia].
  rewrite <- size_dom. apply subseteq_size. set_solver.
Qed.

End traversal.

Section traced_traversal.
Import Traced.
Variable Location_path : N → Path.
Variable isSystem : Path → bool.
Variable server : Server.
Variable deps : gmap N DependencyNode.

Local Abbreviation for_includes' := (for_includes Location_path isSystem server).
Local Abbreviation for_includes_traced' := (for_includes_traced Location_path isSystem server).
Local Abbreviation func' := (func Location_path isSystem server deps).
Local Abbreviation func_traced' := (func_traced Location_path isSystem server deps).

(** Forgetting the record of calls gives back the loop of the source. *)
Lemma for_includes_erase call callT node incs seen :
  (∀ n s, call n s = (r ←' callT n s; Ok r.1)) →
  for_includes' call node incs seen
  = (r ←' for_includes_traced' callT node incs seen; Ok r.1).
Proof.
  intros Hcall. revert seen.
  induction incs as [|inc incs IH]; intros seen; simpl; [done|].
  case_bool_decide; [done|].
  destruct (isSystem _); [done|].
  destruct (negb _); [done|].
  rewrite Hcall. destruct (callT inc _) as [[[b s] calls]| | |]; simpl; try done.
  destruct b; simpl; [done|].
  rewrite IH. by destruct (for_includes_traced' callT node incs s).
Qed.

Lemma func_erase fuel n seen :
  func' fuel n seen = (r ←' func_traced' fuel n seen; Ok r.1).
Proof.
  revert n seen. induction fuel as [|fuel IH]; intros n seen; simpl; [done|].
  destruct (deps !! n) as [node|]; [|done].
  rewrite (for_includes_erase _ (func_traced' fuel)) by done.
  by destruct (for_includes_traced' _ node (includes node) seen).
Qed.

(** The calls made by the loop are on nodes that were not seen before and
    are seen after, each once, provided the closure behaves so. *)
Lemma for_includes_calls callT node incs seen b seen' calls :
  (∀ n s b' s' calls', n ∈ s → callT n s = Ok (b', s', calls') →
     s ⊆ s' ∧ NoDup calls' ∧ ∀ x, x ∈ calls' → x = n ∨ (x ∈ s' ∧ x ∉ s)) →
  for_includes_traced' callT node incs seen = Ok (b, seen', calls) →
  seen ⊆ seen' ∧ NoDup calls ∧ ∀ x, x ∈ calls → x ∈ seen' ∧ x ∉ seen.
Proof.
  intros Hcall. revert seen b seen' calls.
  induction incs as [|inc incs IH]; intros seen b seen' calls; simpl.
  { intros ?; simplify_eq. split; [done|]. split; [constructor|]. set_solver. }
  case_bool_decide as Hseen; [by apply IH|].
  destruct (isSystem _).
  { intros Hrest. apply IH in Hrest as (Hsub & Hnd & Hin).
    split; [set_solver|]. split; [done|]. intros x Hx.
    destruct (Hin x Hx). set_solver. }
  destruct (negb _).
  { intros ?; simplify_eq. split; [set_solver|]. split; [constructor|]. set_solver. }
  destruct (callT inc _) as [[[b1 s1] calls1]| | |] eqn:Hc; simpl; try done.
  apply Hcall in Hc as (Hsub1 & Hnd1 & Hin1); [|set_solver].
  assert (∀ x, x ∈ calls1 → x ∈ s1 ∧ x ∉ seen) as Hin1'.
  { intros x Hx. destruct (Hin1 x Hx) as [->|[? ?]]; set_solver. }
  destruct b1; simpl.
  { intros ?; simplify_eq. split; [set_solver|]. done. }
  destruct (for_includes_traced' callT node incs s1) as [[[b2 s2] calls2]| | |] eqn:Hrest;
    simpl; try done.
  intros ?; simplify_eq.
  apply IH in Hrest as (Hsub2 & Hnd2 & Hin2).
  split; [set_solver|]. split.
  - apply NoDup_app. split; [done|]. split; [|done].
    intros x Hx1 Hx2. destruct (Hin1' x Hx1), (Hin2 x Hx2). done.
  - intros x Hx. apply elem_of_app in Hx as [Hx|Hx].
    + destruct (Hin1' x Hx). set_solver.
    + destruct (Hin2 x Hx). set_solver.
Qed.

(** The closure is called at most once on each node. *)
Lemma func_calls fuel n seen b seen' calls :
  n ∈ seen → func_traced' fuel n seen = Ok (b, seen', calls) →
  seen ⊆ seen' ∧ NoDup calls ∧ ∀ x, x ∈ calls → x = n ∨ (x ∈ seen' ∧ x ∉ seen).
Proof.
  revert n seen b seen' calls.
  induction fuel as [|fuel IH]; intros n seen b seen' calls Hn; simpl; [done|].
  destruct (deps !! n) as [node|].
  2:{ intros ?; simplify_eq. split; [done|]. split; [apply NoDup_singleton|].
      set_solver. }
  destruct (for_includes_traced' _ node (includes node) seen)
    as [[[b1 s1] calls1]| | |] eqn:Hloop; simpl; try done.
  intros ?; simplify_eq.
  apply for_includes_calls in Hloop as (Hsub & Hnd & Hin); [|exact IH].
  split; [done|]. split.
  - apply NoDup_cons. split; [|done]. intros Hx. destruct (Hin n Hx). done.
  - intros x Hx. apply elem_of_cons in Hx as [->|Hx]; [by left|].
    right. by apply Hin.
Qed.

End traced_traversal.

(** C4. For every dependency graph (a finite map of nodes; include cycles
    are not excluded), every root and every classification of files, the
    traversal that [priority()] starts with [seen = {root}] returns within
    the depth budget [depth_bound], and the closure is entered at most
    once for each node: the list of the nodes it was called on has no
    duplicates. *)
Theorem priority_traversal_terminates
    (Location_path : N → Path) (isSystem : Path → bool) (server : Server)
    (deps : gmap N DependencyNode) (root : N) :
  ∃ b seen' calls,
    func Location_path isSystem server deps (depth_bound deps) root {[root]}
    = Ok (b, seen')
    ∧ Traced.func_traced Location_path isSystem server deps (depth_bound deps) root {[root]}
      = Ok (b, seen', calls)
    ∧ NoDup calls.
Proof.
  destruct (func_returns_in_bound Location_path isSystem server deps root {[root]})
    as (b & seen' & Hfunc & _).
  pose proof Hfunc as Herase. rewrite func_erase in Herase.
  apply obind_Ok in Herase as ([[b' s'] calls] & Htraced & ?). simplify_eq.
  exists b, seen', calls. split; [done|]. split; [done|].
  by eapply func_calls; [|exact Htraced]; set_solver.
Qed.

Import PriorityExamples.

(** C3, at the input where the source departs from it.  [a.cpp], not a
    system header and with an Inactive buffer, includes [b.h], not a
    system header either and with an Active buffer; the search of the spec
    finds [b.h], yet [priority()] adds nothing: the closure tests the
    buffer of the including node [n], not of the included one, so a file
    that includes nothing further is never tested. *)
Theorem priority_ignores_active_leaf :
  activeBufferType (example_server leaf_graph) 1 = Inactive
  ∧ is_Some (mDependencies (example_project leaf_graph) !! 1%N)
  ∧ finds_active example_path example_isSystem (example_server leaf_graph) leaf_graph 1
  ∧ func example_path example_isSystem (example_server leaf_graph) leaf_graph
         (depth_bound leaf_graph) 1 {[1%N]}
    = Ok (false, {[2%N]} ∪ {[1%N]})
  ∧ priority example_path example_isSystem (example_server leaf_graph) example_job
    = Ok (0%Z, set_mCachedPriority 0 example_job).
Proof.
  split; [done|]. split; [by eexists|]. split; [|split; reflexivity].
  apply (finds_included _ _ _ _ 1%N (node 1 [2%N]) 2%N (node 2 [])); try done.
  simpl. set_solver.
Qed.

(** The same beyond a cycle: the Active file is reachable, the traversal
    returns, and nothing is added (the 1 is for the focused project). *)
Example priority_cycle_then_leaf :
  finds_active example_path example_isSystem (third_active cycle_then_leaf) cycle_then_leaf 1
  ∧ priority example_path example_isSystem (third_active cycle_then_leaf) example_job
    = Ok (1%Z, set_mCachedPriority 1 example_job).
Proof.
  split; [|reflexivity].
  apply (finds_deeper _ _ _ _ 1%N (node 1 [2%N]) 2%N (node 2 [1%N; 3%N])); try done.
  { simpl. set_solver. }
  apply (finds_included _ _ _ _ 2%N (node 2 [1%N; 3%N]) 3%N (node 3 [])); try done.
  simpl. set_solver.
Qed.

Section priority_facts.
Variable Location_path : N → Path.
Variable isSystem : Path → bool.

(** A job whose cache is set answers with the cache. *)
Lemma priority_cached server job :
  mCachedPriority job ≠ INT_MIN →
  priority Location_path isSystem server job = Ok (mCachedPriority job, job).
Proof. intros Hc. unfold priority. by apply Z.eqb_neq in Hc as ->. Qed.

(** What a job whose cache is unset computes. *)
Lemma priority_computed server job first rest proj :
  mCachedPriority job = INT_MIN →
  sources job = first :: rest →
  projects server !! project job = Some proj →
  ∃ boost : Z,
    priority Location_path isSystem server job
    = Ok (let ret :=
            ((if flags job Dirty then 1 else if flags job Reindex then 4 else 0)
             + boost
             + (if bool_decide (currentProject server = Some (project job))
                then 1 else 0))%Z in
          (ret, set_mCachedPriority ret job))
    ∧ match activeBufferType server (Source_h.fileId first) with
      | Active => boost = 8%Z
      | Open => boost = 3%Z
      | Inactive => boost = 0%Z ∨ boost = 2%Z
      end.
Proof.
  intros Hc Hs Hp. unfold priority. rewrite Hc, Z.eqb_refl, Hs, Hp.
  rewrite bool_decide_true by eauto. cbn [andb].
  destruct (activeBufferType server (Source_h.fileId first)); cbn [obind].
  - destruct (mDependencies proj !! Source_h.fileId first) as [node|].
    + destruct (func_returns_in_bound Location_path isSystem server
                  (mDependencies proj) (Source_h.fileId first)
                  {[Source_h.fileId first]}) as (b & seen' & -> & _).
      cbn [obind fst]. destruct b.
      * exists 2%Z. split; [|by right].
        destruct (flags job Dirty), (flags job Reindex), (bool_decide _);
          simpl; repeat f_equal; lia.
      * exists 0%Z. split; [|by left].
        destruct (flags job Dirty), (flags job Reindex), (bool_decide _);
          simpl; repeat f_equal; lia.
    + exists 0%Z. split; [|by left].
      destruct (flags job Dirty), (flags job Reindex), (bool_decide _);
        simpl; repeat f_equal; lia.
  - exists 8%Z. split; [|done].
    destruct (flags job Dirty), (flags job Reindex), (bool_decide _);
      simpl; repeat f_equal; lia.
  - exists 3%Z. split; [|done].
    destruct (flags job Dirty), (flags job Reindex), (bool_decide _);
      simpl; repeat f_equal; lia.
Qed.

End priority_facts.

(** C9. Take a job with at least one source whose project the server
    knows, and put the buffer of its primary file in state Active, Open
    and Inactive in turn, all else equal.  The three calls of
    [priority()] return, and the value for Active is at least the value
    for Open, which is at least the value for Inactive (whether or not the
    traversal of the dependency node adds its 2). *)
Theorem priority_monotone_in_buffer_state
    (Location_path : N → Path) (isSystem : Path → bool) (server : Server)
    (job : IndexerJob) (first : Source_h.Source) (rest : list Source_h.Source)
    (proj : Project) :
  sources job = first :: rest →
  projects server !! project job = Some proj →
  ∃ (pa po pi : Z) (ja jo ji : IndexerJob),
    priority Location_path isSystem
      (with_buffer (Source_h.fileId first) Active server) job = Ok (pa, ja)
    ∧ priority Location_path isSystem
        (with_buffer (Source_h.fileId first) Open server) job = Ok (po, jo)
    ∧ priority Location_path isSystem
        (with_buffer (Source_h.fileId first) Inactive server) job = Ok (pi, ji)
    ∧ (pi ≤ po ≤ pa)%Z.
Proof.
  intros Hs Hp.
  destruct (decide (mCachedPriority job = INT_MIN)) as [Hc|Hc].
  - destruct (priority_computed Location_path isSystem
                (with_buffer (Source_h.fileId first) Active server) job first rest proj)
      as (ba & -> & Ha); [done..|].
    destruct (priority_computed Location_path isSystem
                (with_buffer (Source_h.fileId first) Open server) job first rest proj)
      as (bo & -> & Ho); [done..|].
    destruct (priority_computed Location_path isSystem
                (with_buffer (Source_h.fileId first) Inactive server) job first rest proj)
      as (bi & -> & Hi); [done..|].
    simpl in Ha, Ho, Hi. rewrite N.eqb_refl in Ha, Ho, Hi.
    eexists _, _, _, _, _, _. do 3 (split; [reflexivity|]).
    simpl. lia.
  - rewrite !priority_cached by done.
    eexists _, _, _, _, _, _. do 3 (split; [reflexivity|]). lia.
Qed.

Lemma priority_monotone_in_buffer_state_witness :
  ∃ (pa po pi : Z) (ja jo ji : IndexerJob),
    priority example_path example_isSystem
      (with_buffer 1 Active (example_server chain_graph)) example_job = Ok (pa, ja)
    ∧ priority example_path example_isSystem
        (with_buffer 1 Open (example_server chain_graph)) example_job = Ok (po, jo)
    ∧ priority example_path example_isSystem
        (with_buffer 1 Inactive (example_server chain_graph)) example_job = Ok (pi, ji)
    ∧ (pi ≤ po ≤ pa)%Z.
Proof.
  apply (priority_monotone_in_buffer_state example_path example_isSystem
           (example_server chain_graph) example_job
           (example_source 1 ["-c"]) [] (example_project chain_graph));
    reflexivity.
Defined.

Section constructor_facts.
Import Constructor.
Variable compareArguments : Source_h.Source → Source_h.Source → bool.

Lemma found_true src sources :
  found compareArguments src sources = true
  ↔ ∃ kept, kept ∈ sources ∧ compareArguments src kept = true.
Proof.
  induction sources as [|k sources IH]; simpl.
  - split; [done|]. intros (? & ? & _). set_solver.
  - destruct (compareArguments src k) eqn:Hk.
    + split; [|done]. intros _. exists k. split; [set_solver|done].
    + rewrite IH. split; intros (z & Hz & Hc).
      * exists z. split; [set_solver|done].
      * apply elem_of_cons in Hz as [->|Hz]; [congruence|]. eauto.
Qed.

Lemma found_false src sources :
  found compareArguments src sources = false
  ↔ ∀ kept, kept ∈ sources → compareArguments src kept = false.
Proof.
  split.
  - intros Hf kept Hk. destruct (compareArguments src kept) eqn:Hc; [|done].
    assert (found compareArguments src sources = true); [|congruence].
    apply found_true. eauto.
  - intros Hall. destruct (found compareArguments src sources) eqn:Hf; [|done].
    apply found_true in Hf as (z & Hz & Hc). rewrite Hall in Hc; done.
Qed.

Lemma kept_at_front front : kept_at compareArguments [front] [0] [front].
Proof.
  split; [repeat constructor|]. split; [by repeat constructor|].
  split; [|split].
  - intros i Hi. simpl in Hi. assert (i = 0) as -> by lia.
    split; [|set_solver]. intros _ x i' y _ Hlt. lia.
  - intros y Hy. exists y. split; [done|by left].
  - intros i j a b Hij Ha Hb. apply lookup_lt_Some in Hb. simpl in Hb. lia.
Qed.

Lemma keep_nonempty rest sources :
  sources ≠ [] → keep compareArguments rest sources ≠ [].
Proof.
  revert sources. induction rest as [|src rest IH]; intros sources Hne; simpl; [done|].
  apply IH. destruct (found _ _ _); [done|]. by destruct sources.
Qed.

Hypothesis compareArguments_trans :
  ∀ a b c, compareArguments a b = true → compareArguments b c = true →
           compareArguments a c = true.

(** One round of the outer loop keeps the invariant. *)
Lemma kept_at_step s pos sources src :
  kept_at compareArguments s pos sources →
  ∃ pos',
    kept_at compareArguments (s ++ [src]) pos'
      (if found compareArguments src sources then sources else sources ++ [src]).
Proof.
  intros (Hsorted & Hpos & Hfirst & Hcover & Hpair).
  assert (∀ i, i ∈ pos → i < length s) as Hbound.
  { intros i Hi. apply list_elem_of_lookup in Hi as [k Hk].
    destruct (Forall2_lookup_l _ _ _ _ _ Hpos Hk) as (x & _ & Hx).
    by apply lookup_lt_Some in Hx. }
  assert (∀ z, z ∈ sources → ∃ i, i < length s ∧ s !! i = Some z) as Hfrom.
  { intros z Hz. apply list_elem_of_lookup in Hz as [k Hk].
    destruct (Forall2_lookup_r _ _ _ _ _ Hpos Hk) as (i & _ & Hi).
    exists i. split; [by apply lookup_lt_Some in Hi|done]. }
  assert (∀ i, i < length s →
            (first_occurrence compareArguments (s ++ [src]) i
             ↔ first_occurrence compareArguments s i)) as Hold.
  { intros i Hi. unfold first_occurrence. split; intros H x i' y Hx Hlt Hy.
    - apply (H x i' y); [by apply lookup_app_l_Some|done|by apply lookup_app_l_Some].
    - rewrite lookup_app_l in Hx, Hy by lia. by apply (H x i' y). }
  assert (Forall2 (λ i x, (s ++ [src]) !! i = Some x) pos sources) as Hpos'.
  { eapply Forall2_impl; [exact Hpos|]. intros i x. apply lookup_app_l_Some. }
  destruct (found compareArguments src sources) eqn:Hfound.
  - apply found_true in Hfound as (z & Hz & Hc).
    exists pos. split; [done|]. split; [done|]. split; [|split; [|done]].
    + intros i Hi. rewrite length_app in Hi. simpl in Hi.
      destruct (decide (i < length s)) as [Hlt|Hge].
      { by rewrite Hold, Hfirst. }
      assert (i = length s) as -> by lia. split.
      * intros Hin. apply Hbound in Hin. lia.
      * intros Hocc. destruct (Hfrom z Hz) as (k & Hk & Hsk).
        rewrite (Hocc src k z) in Hc; [done| |done|by apply lookup_app_l_Some].
        by rewrite list_lookup_middle.
    + intros y Hy. apply elem_of_app in Hy as [Hy|Hy]; [by apply Hcover|].
      apply list_elem_of_singleton in Hy as ->. eauto.
  - pose proof (proj1 (found_false _ _) Hfound) as Hnone.
    exists (pos ++ [length s]). split; [|split; [|split; [|split]]].
    + apply StronglySorted_app_2; [|done|repeat constructor].
      intros i k Hi Hk. apply list_elem_of_singleton in Hk as ->. by apply Hbound.
    + apply Forall2_app; [done|]. constructor; [|constructor].
      by rewrite list_lookup_middle.
    + intros i Hi. rewrite length_app in Hi. simpl in Hi.
      destruct (decide (i < length s)) as [Hlt|Hge].
      { rewrite Hold, <- Hfirst by done. rewrite elem_of_app, list_elem_of_singleton.
        split; [intros [?|?]; [done|lia]|by left]. }
      assert (i = length s) as -> by lia. split; [|set_solver].
      intros _ x i' y Hx Hlt Hy.
      rewrite list_lookup_middle in Hx by done. simplify_eq.
      rewrite lookup_app_l in Hy by done.
      destruct (Hcover y (list_elem_of_lookup_2 _ _ _ Hy)) as (z & Hz & [->|Hyz]);
        [by apply Hnone|].
      destruct (compareArguments x y) eqn:Hxy; [|done].
      rewrite <- (Hnone z Hz). symmetry. by apply (compareArguments_trans x y z).
    + intros y Hy. apply elem_of_app in Hy as [Hy|Hy].
      * destruct (Hcover y Hy) as (z & Hz & Hyz). exists z. split; [set_solver|done].
      * apply list_elem_of_singleton in Hy as ->. exists src. split; [set_solver|by left].
    + intros i j a b Hij Ha Hb.
      destruct (decide (j < length sources)) as [Hj|Hj].
      * rewrite lookup_app_l in Ha, Hb by lia. by apply (Hpair i j).
      * assert (j = length sources) as ->.
        { apply lookup_lt_Some in Hb. rewrite length_app in Hb. simpl in Hb. lia. }
        rewrite list_lookup_middle in Hb by done. simplify_eq.
        rewrite lookup_app_l in Ha by done.
        apply Hnone. by eapply list_elem_of_lookup_2.
Qed.

Lemma keep_kept_at rest s pos sources :
  kept_at compareArguments s pos sources →
  ∃ pos', kept_at compareArguments (s ++ rest) pos' (keep compareArguments rest sources).
Proof.
  revert s pos sources. induction rest as [|src rest IH]; intros s pos sources Hk; simpl.
  - rewrite app_nil_r. eauto.
  - destruct (kept_at_step s pos sources src Hk) as (pos1 & Hk1).
    destruct (IH _ _ _ Hk1) as (pos' & Hk').
    exists pos'. by rewrite <- app_assoc in Hk'.
Qed.

End constructor_facts.

(** The constructor never stops at its assertion, and, given a project,
    it completes on every list that is not empty. *)
Lemma IndexerJob_ctor_not_asserted Location_path compareArguments s f p u next :
  IndexerJob_ctor Location_path compareArguments s f p u next ≠ AssertionFailed.
Proof.
  unfold IndexerJob_ctor. destruct p as [proj|]; [|done].
  destruct s as [|front rest]; [done|].
  pose proof (keep_nonempty compareArguments rest [front]) as Hne.
  rewrite bool_decide_false by (by apply Hne). simpl.
  by destruct (keep compareArguments rest [front]).
Qed.

Lemma IndexerJob_ctor_Ok Location_path compareArguments front rest f proj u next :
  ∃ job,
    IndexerJob_ctor Location_path compareArguments (front :: rest) f (Some proj) u next
    = Ok (job, ((next + 1) mod 2 ^ 64)%N)
    ∧ sources job = keep compareArguments rest [front]
    ∧ id job = next.
Proof.
  unfold IndexerJob_ctor.
  pose proof (keep_nonempty compareArguments rest [front]) as Hne.
  rewrite bool_decide_false by (by apply Hne). simpl.
  destruct (keep compareArguments rest [front]) as [|first others] eqn:Hk.
  { by destruct Hne. }
  eexists. split; [reflexivity|]. done.
Qed.

Import Constructor.

(** C5. Let [compareArguments] be symmetric and transitive.  For every
    input list [s] that is not empty the constructor completes, and the
    [sources] it builds contain no two entries that are argument-equal;
    they are the entries of [s] at increasing positions [pos], and a
    position of [s] is among them exactly when no earlier entry of [s] is
    argument-equal to the entry there: each kept entry stands for the
    first occurrence of its class, in input order. *)
Theorem ctor_keeps_first_occurrences
    (Location_path : N → Path)
    (compareArguments : Source_h.Source → Source_h.Source → bool)
    (s : list Source_h.Source) (f : Flags) (proj : Project)
    (u : gmap N string) (next : N) :
  (∀ a b, compareArguments a b = compareArguments b a) →
  (∀ a b c, compareArguments a b = true → compareArguments b c = true →
            compareArguments a c = true) →
  s ≠ [] →
  ∃ job next' pos,
    IndexerJob_ctor Location_path compareArguments s f (Some proj) u next
    = Ok (job, next')
    ∧ (∀ i j a b, i ≠ j → sources job !! i = Some a → sources job !! j = Some b →
         compareArguments a b = false)
    ∧ StronglySorted lt pos
    ∧ Forall2 (λ i x, s !! i = Some x) pos (sources job)
    ∧ (∀ i, i < length s → (i ∈ pos ↔ first_occurrence compareArguments s i)).
Proof.
  intros Hsym Htrans Hs. destruct s as [|front rest]; [done|].
  destruct (IndexerJob_ctor_Ok Location_path compareArguments front rest f proj u next)
    as (job & Hctor & Hsources & _).
  destruct (keep_kept_at compareArguments Htrans rest [front] [0] [front]
              (kept_at_front compareArguments front))
    as (pos & Hsorted & Hpos & Hfirst & _ & Hpair).
  rewrite <- Hsources in Hpos, Hpair. simpl in Hpos, Hfirst.
  exists job, ((next + 1) mod 2 ^ 64)%N, pos.
  split; [done|]. split; [|done].
  intros i j a b Hij Ha Hb. destruct (decide (i < j)).
  - rewrite Hsym. by apply (Hpair i j).
  - apply (Hpair j i); [lia|done..].
Qed.

Lemma ctor_keeps_first_occurrences_witness :
  ∃ job next' pos,
    IndexerJob_ctor Priority.example_path same_arguments three_sources
      (λ _, false) (Some (Priority.example_project ∅)) ∅ 1
    = Ok (job, next')
    ∧ (∀ i j a b, i ≠ j → sources job !! i = Some a → sources job !! j = Some b →
         same_arguments a b = false)
    ∧ StronglySorted lt pos
    ∧ Forall2 (λ i x, three_sources !! i = Some x) pos (sources job)
    ∧ (∀ i, i < length three_sources →
         (i ∈ pos ↔ first_occurrence same_arguments three_sources i)).
Proof.
  apply (ctor_keeps_first_occurrences Priority.example_path same_arguments
           three_sources (λ _, false) (Priority.example_project ∅) ∅ 1%N).
  - intros a b. unfold same_arguments. apply bool_decide_ext. split; congruence.
  - intros a b c. unfold same_arguments.
    rewrite !bool_decide_eq_true. congruence.
  - discriminate.
Defined.

Example ctor_three_sources :
  sources <$> (fst <$> match IndexerJob_ctor Priority.example_path same_arguments
                               three_sources (λ _, false)
                               (Some (Priority.example_project ∅)) ∅ 1 with
                       | Ok r => Some r
                       | _ => None
                       end)
  = Some [Priority.example_source 1 ["-c"; "-O2"]; Priority.example_source 1 ["-c"; "-g"]].
Proof. reflexivity. Qed.

(** C6, at the empty list.  The constructor takes [s.front()] of the empty
    list before anything else in its body, which C++ leaves undefined; its
    assertion [!sources.empty()] comes after [sources.push_back] and holds
    whenever it is reached, so on no input is it the assertion that stops
    the constructor. *)
Theorem ctor_empty_list_not_asserted
    (Location_path : N → Path)
    (compareArguments : Source_h.Source → Source_h.Source → bool)
    (f : Flags) (proj : Project) (u : gmap N string) (next : N) :
  IndexerJob_ctor Location_path compareArguments [] f (Some proj) u next
  = UndefinedBehaviour
  ∧ ∀ s p, IndexerJob_ctor Location_path compareArguments s f p u next
           ≠ AssertionFailed.
Proof.
  split; [done|]. intros s p. apply IndexerJob_ctor_not_asserted.
Qed.

Import Encoding.

Example encode_plain :
  pl_sources <$> match encode no_applyToSource no_fixPCH 1
                         (server_with_defaults []) (job_with_arguments ["-c"; "-Werror"]) with
                 | Ok r => Some r
                 | _ => None
                 end
  = Some [Priority.example_source 1 ["-c"]].
Proof. reflexivity. Qed.

Section encode_facts.

Lemma erase_first_elem_of x y l : y ∈ erase_first x l → y ∈ l.
Proof.
  induction l as [|z l IH]; simpl; [done|].
  case_bool_decide; [set_solver|].
  rewrite !elem_of_cons. intros [->|?]; [by left|right; by apply IH].
Qed.

Lemma erase_first_not_elem_of x y l : y ∉ l → y ∉ erase_first x l.
Proof. intros Hy Hin. by apply Hy, (erase_first_elem_of x). Qed.

(** Erasing the first occurrence of a string that occurs at most once
    leaves none. *)
Lemma erase_first_at_most_once x l : at_most_once x l → x ∉ erase_first x l.
Proof.
  induction l as [|z l IH]; intros Honce; simpl; [set_solver|].
  case_bool_decide as Hz.
  - subst z. intros Hin. apply list_elem_of_lookup in Hin as [j Hj].
    by specialize (Honce 0 (S j) eq_refl Hj).
  - intros Hin. apply elem_of_cons in Hin as [->|Hin]; [done|].
    revert Hin. apply IH. intros i j Hi Hj.
    specialize (Honce (S i) (S j) Hi Hj). lia.
Qed.

Lemma at_most_once_erase_first x y l : at_most_once x l → at_most_once x (erase_first y l).
Proof.
  revert x. induction l as [|z l IH]; intros x Honce; simpl; [done|].
  assert (at_most_once x l) as Hl.
  { intros i j Hi Hj. specialize (Honce (S i) (S j) Hi Hj). lia. }
  case_bool_decide; [done|].
  intros [|i] [|j] Hi Hj; simpl in *; simplify_eq; try done.
  - apply list_elem_of_lookup_2, erase_first_elem_of, list_elem_of_lookup in Hj as [k Hk].
    by specialize (Honce 0 (S k) eq_refl Hk).
  - apply list_elem_of_lookup_2, erase_first_elem_of, list_elem_of_lookup in Hi as [k Hk].
    by specialize (Honce (S k) 0 Hk eq_refl).
  - f_equal. by apply (IH x Hl).
Qed.

Variable applyToSource : Source_h.Source → Source_h.Source.
Variable fixPCH : Project → Source_h.Source → Source_h.Source.

Hypothesis applyToSource_clean :
  ∀ s, clean (Source_h.arguments s) → clean (Source_h.arguments (applyToSource s)).
Hypothesis fixPCH_clean :
  ∀ pr s, clean (Source_h.arguments s) → clean (Source_h.arguments (fixPCH pr s)).

Lemma clean_erase_first x args : clean args → clean (erase_first x args).
Proof. intros [? ?]. split; by apply erase_first_not_elem_of. Qed.

Lemma clean_app args1 args2 : clean args1 → clean args2 → clean (args1 ++ args2).
Proof. intros [? ?] [? ?]. split; rewrite elem_of_app; tauto. Qed.

Lemma clean_filter (P : string → Prop) `{∀ x, Decision (P x)} args :
  clean args → clean (filter P args).
Proof. intros [? ?]. split; rewrite list_elem_of_filter; tauto. Qed.

(** One source, given a project and the name of the source file. *)
Lemma transform_clean o pr sourceFile src :
  options o AllowWErrorAndWFatalErrors = false →
  clean (defaultArguments o) →
  at_most_once "-Werror" (Source_h.arguments src) →
  at_most_once "-Wfatal-errors" (Source_h.arguments src) →
  sourceFile ≠ "" →
  ∃ copy, transform applyToSource fixPCH o (Some pr) sourceFile src = Ok copy
          ∧ clean (Source_h.arguments copy).
Proof.
  intros Hallow Hdef Hw Hf Hsf. unfold transform. rewrite Hallow. cbn [negb].
  set (a1 := erase_first "-Wfatal-errors" (erase_first "-Werror" (Source_h.arguments src))).
  assert (clean a1) as H1.
  { split.
    - by apply erase_first_not_elem_of, erase_first_at_most_once.
    - by apply erase_first_at_most_once, at_most_once_erase_first. }
  set (c2 := Source_h.set_arguments (Source_h.arguments (Source_h.set_arguments a1 src)
                                     ++ defaultArguments o) _).
  assert (clean (Source_h.arguments c2)) as H2 by (by apply clean_app).
  set (c3 := if negb (options o AllowPedantic) then _ else c2).
  assert (clean (Source_h.arguments c3)) as H3.
  { unfold c3. destruct (negb _); [|done]. by apply clean_erase_first. }
  set (c4 := if options o EnableCompilerManager then _ else c3).
  assert (clean (Source_h.arguments c4)) as H4.
  { unfold c4. destruct (options o EnableCompilerManager); [|done].
    by apply applyToSource_clean. }
  set (c5 := Source_h.set_includePaths _ (filterBlockedArguments o c4)).
  assert (clean (Source_h.arguments c5)) as H5.
  { unfold c5, filterBlockedArguments. simpl. by apply clean_filter. }
  set (c6 := if options o PCHEnabled then Ok (fixPCH pr c5) else Ok c5).
  assert (∃ c, c6 = Ok c ∧ clean (Source_h.arguments c)) as (c & -> & H6).
  { unfold c6. destruct (options o PCHEnabled); eauto. }
  cbn [obind]. apply isEmpty_false in Hsf as ->. cbn [negb assert obind].
  eexists. split; [done|].
  by destruct (negb (options o EnableNDEBUG)).
Qed.

Lemma transform_all_clean o pr sourceFile srcs :
  options o AllowWErrorAndWFatalErrors = false →
  clean (defaultArguments o) →
  Forall (λ src, at_most_once "-Werror" (Source_h.arguments src)
                 ∧ at_most_once "-Wfatal-errors" (Source_h.arguments src)) srcs →
  sourceFile ≠ "" →
  ∃ copies, transform_all applyToSource fixPCH o (Some pr) sourceFile srcs = Ok copies
            ∧ Forall (λ copy, clean (Source_h.arguments copy)) copies.
Proof.
  intros Hallow Hdef Hsrcs Hsf.
  induction Hsrcs as [|src srcs [Hw Hf] _ (copies & IH & Hclean)]; simpl.
  - by exists [].
  - destruct (transform_clean o pr sourceFile src) as (copy & -> & Hc); [done..|].
    simpl. rewrite IH. simpl. eexists. split; [done|]. by constructor.
Qed.

End encode_facts.


(** Only the first occurrence of a flag is erased: of two [-Werror] in
    the arguments of the source one is written. *)
Example encode_keeps_second_Werror :
  pl_sources <$> match encode no_applyToSource no_fixPCH 1
                         (server_with_defaults [])
                         (job_with_arguments ["-Werror"; "-c"; "-Werror"]) with
                 | Ok r => Some r
                 | _ => None
                 end
  = Some [Priority.example_source 1 ["-c"; "-Werror"]].
Proof. reflexivity. Qed.



Import String_h ListSymbolsJob_cpp Listing.

Example run_path_filtered :
  run (foo_query [{| mode := Self; pattern := "/src/a.cpp" |}])
  = Ok (0%Z, [Item "foo(int)"],
        foo_query [{| mode := Self; pattern := "/src/a.cpp" |}]).
Proof. vm_compute. reflexivity. Qed.

Example run_project_wide :
  run (foo_query []) = Ok (0%Z, [Item "foo"; Item "foo(int)"], foo_query []).
Proof. vm_compute. reflexivity. Qed.

Section listing_facts.
Variable matchSymbolName : string → string → CaseSensitivity → bool.
Variable isFunctionVariable : string → bool.
Variable filterKind : Symbol → bool.
Variable hasFilter hasKindFilter : bool.
Variable filter_ : Path → bool.
Variable Location_path : N → Path.
Variable findSymbol : Project → Location → Symbol.

(** The scan of one file: a name that passes the filters is kept whole
    when parentheses are not stripped, and nothing else is added. *)
Lemma scanSymbol_not_stripping job out symbol :
  filterKind symbol = true → symbolName symbol ≠ "" →
  nameMatches matchSymbolName job (symbolName symbol) = true →
  queryFlags job StripParentheses = false →
  scanSymbol matchSymbolName isFunctionVariable filterKind job out symbol
  = {[symbolName symbol]} ∪ out.
Proof.
  intros Hk Hn Hm Hs. unfold scanSymbol. rewrite Hk, Hm, Hs.
  by apply isEmpty_false in Hn as ->.
Qed.

(** The scan of one file, stripping: the bare form only. *)
Lemma scanSymbol_stripping job out symbol :
  filterKind symbol = true → symbolName symbol ≠ "" →
  nameMatches matchSymbolName job (symbolName symbol) = true →
  queryFlags job StripParentheses = true →
  indexOf "(" (symbolName symbol) ≠ (-1)%Z →
  isFunctionVariable (symbolName symbol) = false →
  scanSymbol matchSymbolName isFunctionVariable filterKind job out symbol
  = {[left (indexOf "(" (symbolName symbol)) (symbolName symbol)]} ∪ out.
Proof.
  intros Hk Hn Hm Hs Hp Hv. unfold scanSymbol. rewrite Hk, Hm, Hs, Hv.
  apply isEmpty_false in Hn as ->. by apply Z.eqb_neq in Hp as ->.
Qed.

(** The callback of the project-wide scan: both forms when parentheses
    are not stripped, the bare form only when they are. *)
Lemma inserter_parenthesized job proj out str locations :
  hasFilter = false → hasKindFilter = false →
  indexOf "(" str ≠ (-1)%Z → isFunctionVariable str = false →
  inserter isFunctionVariable filterKind hasFilter hasKindFilter filter_
    Location_path findSymbol job proj out str locations
  = Ok (if queryFlags job StripParentheses
        then {[left (indexOf "(" str) str]} ∪ out
        else {[str]} ∪ ({[left (indexOf "(" str) str]} ∪ out)).
Proof.
  intros -> -> Hp Hv. unfold inserter. simpl.
  apply Z.eqb_neq in Hp as ->. rewrite Hv. simpl.
  by destruct (queryFlags job StripParentheses).
Qed.

End listing_facts.

(** C7, at the input where the source departs from it.  The store holds
    the function [foo(int)]; the query is [foo*] with wildcard matching
    and strip-parentheses not requested.  Scoped to the file by a path
    filter, the listing writes [foo(int)] alone, without the bare form
    [foo]; project-wide, it writes both [foo] and [foo(int)]. *)
Theorem path_filtered_listing_omits_bare_form :
  queryFlags (foo_query []) StripParentheses = false
  ∧ nameMatches matchSymbolName_glob (foo_query []) "foo(int)" = true
  ∧ left (indexOf "(" "foo(int)") "foo(int)" = "foo"
  ∧ listSymbolsWithPathFilter matchSymbolName_glob no_function_variable any_kind
      fileId_of symbols_of
      (foo_query [{| mode := Self; pattern := "/src/a.cpp" |}]) the_project
      ["/src/a.cpp"]
    = {["foo(int)"]} ∪ ∅
  ∧ run (foo_query [{| mode := Self; pattern := "/src/a.cpp" |}])
    = Ok (0%Z, [Item "foo(int)"],
          foo_query [{| mode := Self; pattern := "/src/a.cpp" |}])
  ∧ run (foo_query []) = Ok (0%Z, [Item "foo"; Item "foo(int)"], foo_query []).
Proof.
  split; [done|]. split; [done|]. split; [done|]. split; [done|].
  split; vm_compute; reflexivity.
Qed.

Section glob_facts.

Lemma append_cons c s t : String c s +:+ t = String c (s +:+ t).
Proof. done. Qed.

Lemma append_nil_l s : "" +:+ s = s.
Proof. done. Qed.

Lemma append_nil_r s : s +:+ "" = s.
Proof. induction s as [|c s IH]; [done|]. by rewrite append_cons, IH. Qed.

Lemma append_assoc s t u : (s +:+ t) +:+ u = s +:+ (t +:+ u).
Proof. induction s as [|c s IH]; [done|]. by rewrite !append_cons, IH. Qed.

Lemma contains_char_append c s t :
  contains_char c (s +:+ t) = contains_char c s || contains_char c t.
Proof.
  induction s as [|d s IH]; [done|]. rewrite append_cons. simpl.
  by destruct (Ascii.eqb d c).
Qed.

Lemma isEmpty_append_star s : isEmpty (s +:+ "*") = false.
Proof. apply isEmpty_false. by destruct s. Qed.

(** The two shapes of a non-empty pattern. *)
Lemma wildCmp_star cs pattern s :
  wildCmp cs (String "*" pattern) s
  = wildCmp cs pattern s
    || match s with
       | EmptyString => false
       | String _ s' => wildCmp cs (String "*" pattern) s'
       end.
Proof. by destruct s. Qed.

Lemma wildCmp_char cs p pattern s :
  Ascii.eqb p "*" = false →
  wildCmp cs (String p pattern) s
  = match s with
    | EmptyString => false
    | String c s' =>
        (Ascii.eqb p "?"
         || match cs with
            | CaseSensitive => Ascii.eqb p c
            | CaseInsensitive => Ascii.eqb (toLower p) (toLower c)
            end)
        && wildCmp cs pattern s'
    end.
Proof. intros Hp. simpl. by rewrite Hp. Qed.

(** A leading [*] lets the rest of the pattern start anywhere. *)
Lemma wildCmp_star_true cs pattern s :
  wildCmp cs (String "*" pattern) s = true
  ↔ ∃ head tail, s = head +:+ tail ∧ wildCmp cs pattern tail = true.
Proof.
  induction s as [|c s IH]; rewrite wildCmp_star, orb_true_iff.
  - split.
    + intros [H|?]; [|done]. by exists "", "".
    + intros (head & tail & Hs & H). left.
      destruct head; [|done]. by rewrite append_nil_l in Hs; subst.
  - rewrite IH. split.
    + intros [H|(head & tail & -> & H)].
      * by exists "", (String c s).
      * exists (String c head), tail. by rewrite append_cons.
    + intros (head & tail & Hs & H). destruct head as [|d head].
      * left. by rewrite append_nil_l in Hs; subst.
      * right. rewrite append_cons in Hs. simplify_eq. eauto.
Qed.

(** A trailing [*] lets the pattern before it match any beginning. *)
Lemma wildCmp_trailing_star cs pattern s :
  wildCmp cs (pattern +:+ "*") s = true
  ↔ ∃ head tail, s = head +:+ tail ∧ wildCmp cs pattern head = true.
Proof.
  revert s. induction pattern as [|p pattern IH]; intros s.
  - rewrite append_nil_l, wildCmp_star_true. split.
    + intros _. by exists "", s.
    + intros _. exists s, "". by rewrite append_nil_r.
  - rewrite append_cons. destruct (Ascii.eqb p "*") eqn:Hp.
    + apply Ascii.eqb_eq in Hp as ->. rewrite wildCmp_star_true. split.
      * intros (head & tail & -> & H). apply IH in H as (mid & tail' & -> & H).
        exists (head +:+ mid), tail'. split; [by rewrite append_assoc|].
        apply wildCmp_star_true. eauto.
      * intros (head & tail & -> & H).
        apply wildCmp_star_true in H as (skip & mid & -> & H).
        exists skip, (mid +:+ tail). split; [by rewrite append_assoc|].
        apply IH. eauto.
    + rewrite wildCmp_char by done. destruct s as [|c s].
      * split; [done|]. intros (head & tail & Hs & H).
        destruct head; [|done]. by rewrite wildCmp_char in H.
      * rewrite andb_true_iff, IH. split.
        -- intros (Hc & head & tail & -> & H).
           exists (String c head), tail. split; [done|].
           rewrite wildCmp_char by done. by rewrite Hc.
        -- intros (head & tail & Hs & H). rewrite wildCmp_char in H by done.
           destruct head as [|d head]; [done|].
           rewrite append_cons in Hs. simplify_eq.
           apply andb_true_iff in H as [Hc H]. eauto.
Qed.

End glob_facts.

(** C10. Let the matcher give a trailing [*] its usual sense.  When
    wildcard matching is requested and the query holds a [*] or [?] but
    does not end in [*], then [execute] puts a [*] at its end; both scans
    are run on the extended query; and the name test of the scan accepts a
    symbol name exactly when some beginning of it matches the query as it
    was given. *)
Theorem wildcard_query_gets_trailing_star
    (matchSymbolName : string → string → CaseSensitivity → bool)
    (isFunctionVariable : string → bool) (filterKind : Symbol → bool)
    (hasFilter hasKindFilter : bool) (filter_ : Path → bool)
    (Location_fileId : Path → N) (Location_path : N → Path) (isFile : Path → bool)
    (openSymbols : Project → N → option (list Symbol))
    (findSymbol : Project → Location → Symbol)
    (findSymbols : Project → string → (QueryFlag → bool) → list (string * list Location))
    (job : ListSymbolsJob) (proj : Project) :
  (∀ pattern name cs,
     matchSymbolName (pattern +:+ "*") name cs = true
     ↔ ∃ head tail, name = head +:+ tail ∧ matchSymbolName pattern head cs = true) →
  project job = Some proj →
  queryFlags job WildcardSymbolNames = true →
  contains_char "*" (string_ job) || contains_char "?" (string_ job) = true →
  endsWith "*" (string_ job) = false →
  string_ (extend job) = string_ job +:+ "*"
  ∧ collect matchSymbolName isFunctionVariable filterKind hasFilter hasKindFilter
      filter_ Location_fileId Location_path isFile openSymbols findSymbol findSymbols job
    = (out ←' (if negb (bool_decide (collectPaths isFile (pathFilters job) [] = []))
               then Ok (listSymbolsWithPathFilter matchSymbolName isFunctionVariable
                          filterKind Location_fileId openSymbols (extend job) proj
                          (collectPaths isFile (pathFilters job) []))
               else listSymbols isFunctionVariable filterKind hasFilter hasKindFilter
                      filter_ Location_path findSymbol findSymbols (extend job) proj);
       Ok (out, extend job))
  ∧ ∀ name,
      nameMatches matchSymbolName (extend job) name = true
      ↔ ∃ head tail,
          name = head +:+ tail
          ∧ matchSymbolName (string_ job) head (caseSensitivity job) = true.
Proof.
  intros Hstar Hproj Hflag Hwild Hend.
  assert (extend job = set_string (string_ job +:+ "*") job) as Hext.
  { unfold extend. by rewrite Hflag, Hwild, Hend. }
  split; [by rewrite Hext|]. split.
  - unfold collect. rewrite Hproj. by rewrite Hext.
  - intros name. rewrite Hext. unfold nameMatches, wildcard, caseSensitivity. simpl.
    rewrite isEmpty_append_star, Hflag. simpl.
    rewrite !contains_char_append.
    replace (contains_char "*" (string_ job) || contains_char "*" "*"
             || (contains_char "?" (string_ job) || contains_char "?" "*"))
      with true by (simpl; by rewrite orb_true_r).
    apply Hstar.
Qed.

Lemma wildcard_query_gets_trailing_star_witness :
  string_ (extend f_o_query) = "f?o*"
  ∧ nameMatches matchSymbolName_glob (extend f_o_query) "fooBar(int)" = true.
Proof.
  destruct (wildcard_query_gets_trailing_star matchSymbolName_glob
              no_function_variable any_kind false false any_path fileId_of path_of
              is_a_cpp symbols_of symbol_at names_of f_o_query the_project)
    as (Hstring & _ & Hmatch).
  - intros pattern name cs. apply wildCmp_trailing_star.
  - reflexivity.
  - reflexivity.
  - reflexivity.
  - reflexivity.
  - split; [exact Hstring|]. apply Hmatch. by exists "foo", "Bar(int)".
Defined.

(** Without the extension [f?o] matches names of three characters only. *)
Example glob_f_o :
  wildCmp CaseSensitive "f?o" "foo" = true
  ∧ wildCmp CaseSensitive "f?o" "fooBar(int)" = false
  ∧ wildCmp CaseSensitive "f?o*" "fooBar(int)" = true.
Proof. done. Qed.

(** Two more ways out of exclusive claiming, both closed off in the
    amended C2: a claim with an empty path leaves the identifier open to
    the next caller, and the file a job starts with is in its [visited]
    set without being in the visited map. *)
Example claim_with_empty_path :
  ∃ st1 st2,
    visitFile 3 "" 10 two_idle_jobs = Ok (true, st1)
    ∧ visitFile 3 "/c.h" 20 st1 = Ok (true, st2)
    ∧ ¬ exclusive st2.
Proof.
  eexists _, _. split; [reflexivity|]. split; [reflexivity|].
  intros Hex.
  specialize (Hex 3%N 1%N (set_visited ({[3%N]} ∪ ∅) (set_visited ∅ (job_of 1 1)))
                  2%N (set_visited ({[3%N]} ∪ ∅) (set_visited ∅ (job_of 2 2)))).
  assert (1%N = 2%N) as Habs; [|done].
  apply Hex.
  - split; [by exists 10%N|reflexivity].
  - split; [by exists 20%N|reflexivity].
  - simpl. set_solver.
  - simpl. set_solver.
Qed.

Example claim_of_primary_file :
  ∃ st, visitFile 1 "/src/a.cpp" 20 two_jobs = Ok (true, st) ∧ ¬ exclusive st.
Proof.
  eexists. split; [reflexivity|].
  intros Hex.
  specialize (Hex 1%N 1%N (job_of 1 1)
                  2%N (set_visited ({[1%N]} ∪ {[2%N]}) (job_of 2 2))).
  assert (1%N = 2%N) as Habs; [|done].
  apply Hex.
  - split; [by exists 10%N|reflexivity].
  - split; [by exists 20%N|reflexivity].
  - simpl. set_solver.
  - simpl. set_solver.
Qed.

(** * Further properties of [Project.h] *)

Section release_facts.

Lemma releaseFileIds_fields fileIds proj :
  mPath (releaseFileIds fileIds proj) = mPath proj
  ∧ mDependencies (releaseFileIds fileIds proj) = mDependencies proj.
Proof. unfold releaseFileIds. by case_bool_decide. Qed.

Lemma Project_eq (p q : Project) :
  mPath p = mPath q → mVisitedFiles p = mVisitedFiles q →
  mActiveJobs p = mActiveJobs q → mDependencies p = mDependencies q → p = q.
Proof. destruct p, q. simpl. by intros -> -> -> ->. Qed.

End release_facts.

(** X1. A call of [visitFile] stops at an assertion exactly when the file
    identifier is 0, or when no path is recorded for it yet and the key is
    not accepted by [isActiveJob] or is registered with a null job
    pointer.  In particular a call on a recorded identifier never asserts,
    whatever the key. *)
Theorem visitFile_asserts_iff (proj : Project) (heap : gmap N IndexerJob)
    (f : N) (path : Path) (key : N) :
  visitFile f path key (proj, heap) = AssertionFailed
  ↔ f = 0%N
    ∨ (¬ recorded proj f
       ∧ (isActiveJob key proj = false
          ∨ (key ≠ 0%N ∧ mActiveJobs proj !! key = Some None))).
Proof.
  destruct (N.eq_dec f 0%N) as [->|Hf].
  { split; [by left|]. intros _. done. }
  destruct (mVisitedFiles proj !! f) as [p|] eqn:Hp;
    [destruct (decide (p = "")) as [->|Hne]|].
  2:{ rewrite visitFile_recorded by (done || by exists p).
      split; [done|]. intros [?|[Hnr _]]; [done|]. destruct Hnr. by exists p. }
  all: assert (¬ recorded proj f) as Hnr
    by (intros (q & Hq & Hqne); congruence).
  all: unfold visitFile, isActiveJob; pose proof Hf as Hf';
    apply N.eqb_neq in Hf' as ->; simpl; unfold subscript; rewrite Hp; simpl.
  all: destruct (N.eqb_spec key 0%N) as [->|Hkey]; simpl;
    [split; [done|]; intros [?|[_ [?|[? _]]]]; done|].
  all: destruct (mActiveJobs proj !! key) as [[addr|]|] eqn:Hreg; simpl.
  all: rewrite ?bool_decide_true by eauto; rewrite ?bool_decide_false by (by intros [? ?]);
    simpl.
  all: try (split; [intros _; right; split; [done|]; by eauto|done]).
  all: destruct (heap !! addr); simpl;
    (split; [done|]; intros [?|[_ [?|[_ ?]]]]; done).
Qed.

(** X2. A call of [visitFile] that returns leaves the registry of active
    jobs, the dependency map and the project path as they were, leaves the
    path of every other file identifier as it was, and changes no job
    other than the one registered under [key], to whose [visited] set it
    can only add [f]. *)
Theorem visitFile_frame (proj proj' : Project) (heap heap' : gmap N IndexerJob)
    (f : N) (path : Path) (key : N) (b : bool) :
  visitFile f path key (proj, heap) = Ok (b, (proj', heap')) →
  mActiveJobs proj' = mActiveJobs proj
  ∧ mDependencies proj' = mDependencies proj
  ∧ mPath proj' = mPath proj
  ∧ (∀ g, g ≠ f → mVisitedFiles proj' !! g = mVisitedFiles proj !! g)
  ∧ (∀ addr,
       heap' !! addr = heap !! addr
       ∨ ∃ job, mActiveJobs proj !! key = Some (Some addr)
                ∧ heap !! addr = Some job
                ∧ heap' !! addr = Some (set_visited ({[f]} ∪ visited job) job)).
Proof.
  intros Hcall.
  apply visitFile_Ok_inv in Hcall
    as (Hf & [(-> & _ & ?)|(-> & Hnr & Hproj & Hheap)]).
  { simplify_eq. repeat split; try done. by left. }
  simpl in *. subst proj'. simpl.
  split; [done|]. split; [done|]. split; [done|]. split.
  { intros g Hg. by rewrite lookup_insert_ne. }
  intros addr. destruct Hheap as [[_ ->]|(a & job & _ & Hreg & Hjob & ->)]; [by left|].
  destruct (decide (addr = a)) as [->|Hne].
  - right. exists job. by rewrite lookup_insert_eq.
  - left. by rewrite lookup_insert_ne.
Qed.

Lemma visitFile_frame_witness :
  ∃ proj' heap',
    visitFile 3 "/c.h" 10 two_jobs = Ok (true, (proj', heap'))
    ∧ mActiveJobs proj' = mActiveJobs two_jobs.1
    ∧ heap' !! 2%N = two_jobs.2 !! 2%N.
Proof.
  eexists _, _. split; [reflexivity|].
  destruct (visitFile_frame two_jobs.1 _ two_jobs.2 _ 3 "/c.h" 10 true eq_refl)
    as (Hreg & _ & _ & _ & Hheap).
  split; [exact Hreg|]. reflexivity.
Defined.

(** X3. The loop of [releaseFileIds] removes from the visited map exactly
    the entries of the given identifiers and changes nothing else of the
    project: its path, the registry of active jobs and the dependency map
    stay as they are (the jobs are not touched: the function has no
    access to them); two releases in a row amount to one release of the
    union. *)
Theorem releaseFileIds_exact (S1 S2 : gset N) (proj : Project) :
  mVisitedFiles (releaseFileIds S1 proj)
  = filter (λ kv, kv.1 ∉ S1) (mVisitedFiles proj)
  ∧ dom (mVisitedFiles (releaseFileIds S1 proj)) = dom (mVisitedFiles proj) ∖ S1
  ∧ mPath (releaseFileIds S1 proj) = mPath proj
  ∧ mActiveJobs (releaseFileIds S1 proj) = mActiveJobs proj
  ∧ mDependencies (releaseFileIds S1 proj) = mDependencies proj
  ∧ releaseFileIds S1 (releaseFileIds S2 proj) = releaseFileIds (S1 ∪ S2) proj.
Proof.
  split; [|split; [|split; [|split; [|split]]]].
  - apply map_eq. intros f. rewrite lookup_release.
    destruct (mVisitedFiles proj !! f) as [p|] eqn:Hp.
    + destruct (decide (f ∈ S1)).
      * symmetry. apply map_lookup_filter_None. right. intros p' Hp'. simpl. tauto.
      * symmetry. by apply map_lookup_filter_Some.
    + assert ((filter (λ kv : N * string, kv.1 ∉ S1) (mVisitedFiles proj)) !! f = None)
        as -> by (apply map_lookup_filter_None; by left).
      by destruct (decide (f ∈ S1)).
  - apply set_eq. intros f. rewrite elem_of_difference, !elem_of_dom, lookup_release.
    destruct (decide (f ∈ S1)); [|tauto].
    split; [by intros [? ?]|tauto].
  - apply releaseFileIds_fields.
  - apply releaseFileIds_registry.
  - apply releaseFileIds_fields.
  - apply Project_eq.
    + by rewrite !(proj1 (releaseFileIds_fields _ _)).
    + apply map_eq. intros f. rewrite !lookup_release.
      destruct (decide (f ∈ S1)), (decide (f ∈ S2)), (decide (f ∈ S1 ∪ S2));
        try done; set_solver.
    + by rewrite !releaseFileIds_registry.
    + by rewrite !(proj2 (releaseFileIds_fields _ _)).
Qed.

(** X4. Release re-opens a claim: whatever was recorded before, after
    [releaseFileIds] a released identifier (other than 0) is claimed by the
    next [visitFile], on behalf of no job or of a registered one, and the
    path of that call is stored. *)
Theorem released_file_can_be_claimed (fileIds : gset N) (proj : Project)
    (heap : gmap N IndexerJob) (f : N) (path : Path) (key : N) :
  f ≠ 0%N → f ∈ fileIds →
  chargeable (proj, heap) key →
  ∃ st', visitFile f path key (releaseFileIds fileIds proj, heap) = Ok (true, st')
         ∧ mVisitedFiles st'.1 !! f = Some path.
Proof.
  intros Hf Hin Hkey.
  destruct (visitFile_fresh f path key (releaseFileIds fileIds proj) heap)
    as (heap' & Hcall & _); [done| | |].
  - intros (p & Hp & _). rewrite lookup_release, decide_True in Hp; done.
  - destruct Hkey as [?|(addr & job & Hreg & Hjob)]; [by left|right].
    exists addr, job. simpl in *. by rewrite releaseFileIds_registry.
  - eexists. split; [exact Hcall|]. simpl. by rewrite lookup_insert_eq.
Qed.

Lemma released_file_can_be_claimed_witness :
  ∃ st st', visitFile 3 "/c.h" 10 two_jobs = Ok (true, st)
            ∧ visitFile 3 "/d.h" 20 (releaseFileIds {[3%N]} st.1, st.2) = Ok (true, st')
            ∧ mVisitedFiles st'.1 !! 3%N = Some "/d.h".
Proof.
  eexists. 
  destruct (released_file_can_be_claimed {[3%N]}
              (set_mVisitedFiles (<[3%N := "/c.h"]> ∅) two_jobs.1)
              (<[1%N := set_visited ({[3%N]} ∪ {[1%N]}) (job_of 1 1)]> two_jobs.2)
              3 "/d.h" 20) as (st' & Hcall & Hpath).
  - done.
  - set_solver.
  - right. exists 2%N, (job_of 2 2). split; reflexivity.
  - exists st'. split; [reflexivity|]. split; [exact Hcall|exact Hpath].
Defined.

(** X5. Claim and release do not cancel out for the job: a first claim of
    an absent identifier on behalf of a registered job followed by the
    release of that identifier gives back the project as it was, visited
    map included, but the job goes on holding the identifier in its
    [visited] set. *)
Theorem claim_then_release (proj : Project) (heap : gmap N IndexerJob)
    (f : N) (path : Path) (key addr : N) (job : IndexerJob) :
  f ≠ 0%N → key ≠ 0%N →
  mVisitedFiles proj !! f = None →
  mActiveJobs proj !! key = Some (Some addr) → heap !! addr = Some job →
  ∃ proj' heap',
    visitFile f path key (proj, heap) = Ok (true, (proj', heap'))
    ∧ releaseFileIds {[f]} proj' = proj
    ∧ heap' = <[addr := set_visited ({[f]} ∪ visited job) job]> heap.
Proof.
  intros Hf Hkey Hnone Hreg Hjob.
  destruct (visitFile_fresh f path key proj heap) as (heap' & Hcall & _ & Hheap);
    [done| | |].
  - intros (p & Hp & _). congruence.
  - right. by exists addr, job.
  - eexists _, heap'. split; [exact Hcall|]. split; [|by apply (Hheap addr job)].
    apply Project_eq.
    + by rewrite (proj1 (releaseFileIds_fields _ _)).
    + apply map_eq. intros g. rewrite lookup_release. simpl.
      destruct (decide (g ∈ ({[f]} : gset N))) as [Hg|Hg].
      * apply elem_of_singleton in Hg as ->. done.
      * rewrite lookup_insert_ne; [done|]. set_solver.
    + by rewrite releaseFileIds_registry.
    + by rewrite (proj2 (releaseFileIds_fields _ _)).
Qed.

Lemma claim_then_release_witness :
  ∃ proj' heap',
    visitFile 3 "/c.h" 10 two_jobs = Ok (true, (proj', heap'))
    ∧ releaseFileIds {[3%N]} proj' = two_jobs.1
    ∧ heap' = <[1%N := set_visited ({[3%N]} ∪ visited (job_of 1 1)) (job_of 1 1)]> two_jobs.2.
Proof.
  apply (claim_then_release two_jobs.1 two_jobs.2 3 "/c.h" 10 1 (job_of 1 1));
    done.
Defined.

(** * Further properties of the constructor of [IndexerJob] *)

Section keep_facts.
Variable compareArguments : Source_h.Source → Source_h.Source → bool.

Lemma keep_prefix rest sources :
  ∃ more, keep compareArguments rest sources = sources ++ more
          ∧ sublist more rest.
Proof.
  revert sources. induction rest as [|src rest IH]; intros sources; simpl.
  - exists []. by rewrite app_nil_r.
  - destruct (found compareArguments src sources).
    + destruct (IH sources) as (more & -> & Hsub).
      exists more. split; [done|]. by apply sublist_cons.
    + destruct (IH (sources ++ [src])) as (more & -> & Hsub).
      exists (src :: more). split; [by rewrite <- app_assoc|]. by apply sublist_skip.
Qed.

Lemma keep_covers rest sources src :
  src ∈ sources ++ rest →
  src ∈ keep compareArguments rest sources
  ∨ ∃ kept, kept ∈ keep compareArguments rest sources
            ∧ compareArguments src kept = true.
Proof.
  revert sources. induction rest as [|r rest IH]; intros sources Hin; simpl.
  - left. by rewrite app_nil_r in Hin.
  - apply elem_of_app in Hin as [Hs|Hin];
      [|apply elem_of_cons in Hin as [->|Hrest]].
    + destruct (found compareArguments r sources); apply IH; set_solver.
    + destruct (found compareArguments r sources) eqn:Hfound.
      * apply found_true in Hfound as (kept & Hk & Hc).
        right. exists kept. split; [|done].
        destruct (keep_prefix rest sources) as (more & -> & _). set_solver.
      * apply IH. set_solver.
    + destruct (found compareArguments r sources); apply IH; set_solver.
Qed.

Lemma keep_no_duplicates rest sources :
  (∀ pre a post b, rest = pre ++ a :: post → b ∈ sources ++ pre →
     compareArguments a b = false) →
  keep compareArguments rest sources = sources ++ rest.
Proof.
  revert sources. induction rest as [|src rest IH]; intros sources Hall; simpl.
  - by rewrite app_nil_r.
  - assert (found compareArguments src sources = false) as ->.
    { apply found_false. intros kept Hk. apply (Hall [] src rest); [done|].
      by rewrite app_nil_r. }
    rewrite IH; [by rewrite <- app_assoc|].
    intros pre a post b -> Hb. apply (Hall (src :: pre) a post); [done|].
    rewrite <- app_assoc in Hb. done.
Qed.

End keep_facts.

(** X6. Identifiers are handed out in construction order: of two jobs
    constructed one after the other, the first gets the value of the
    counter and the second the next one, so identifiers increase for as
    long as the 64-bit counter has not wrapped around. *)
Theorem ctor_ids_increase
    (Location_path : N → Path)
    (compareArguments : Source_h.Source → Source_h.Source → bool)
    (s1 s2 : list Source_h.Source) (f1 f2 : Flags) (p1 p2 : option Project)
    (u1 u2 : gmap N string) (next next1 next2 : N) (job1 job2 : IndexerJob) :
  (next + 1 < 2 ^ 64)%N →
  IndexerJob_ctor Location_path compareArguments s1 f1 p1 u1 next = Ok (job1, next1) →
  IndexerJob_ctor Location_path compareArguments s2 f2 p2 u2 next1 = Ok (job2, next2) →
  id job1 = next ∧ id job2 = (next + 1)%N ∧ (id job1 < id job2)%N.
Proof.
  intros Hbound H1 H2.
  destruct p1 as [proj1|]; [|done]. destruct s1 as [|front1 rest1]; [done|].
  destruct p2 as [proj2|]; [|done]. destruct s2 as [|front2 rest2]; [done|].
  destruct (IndexerJob_ctor_Ok Location_path compareArguments front1 rest1 f1 proj1 u1 next)
    as (j1 & Hj1 & _ & Hid1).
  rewrite Hj1 in H1. simplify_eq.
  destruct (IndexerJob_ctor_Ok Location_path compareArguments front2 rest2 f2 proj2 u2
              ((id job1 + 1) mod 2 ^ 64)%N) as (j2 & Hj2 & _ & Hid2).
  rewrite Hj2 in H2. simplify_eq.
  rewrite Hid2, N.mod_small by done. split; [done|]. split; [done|]. lia.
Qed.

Lemma ctor_ids_increase_witness :
  ∃ job1 next1 job2 next2,
    IndexerJob_ctor Priority.example_path same_arguments three_sources
      (λ _, false) (Some (Priority.example_project ∅)) ∅ 1 = Ok (job1, next1)
    ∧ IndexerJob_ctor Priority.example_path same_arguments three_sources
        (λ _, false) (Some (Priority.example_project ∅)) ∅ next1 = Ok (job2, next2)
    ∧ (id job1 < id job2)%N.
Proof.
  eexists _, _, _, _. split; [reflexivity|]. split; [reflexivity|].
  eapply (ctor_ids_increase Priority.example_path same_arguments
            three_sources three_sources (λ _, false) (λ _, false)
            (Some (Priority.example_project ∅)) (Some (Priority.example_project ∅))
            ∅ ∅ 1%N); [done|reflexivity|reflexivity].
Defined.

(** X7. Whatever [compareArguments] is, a job constructed from the list
    [front :: rest] has [front] as its first source, a [visited] set that
    holds the file of [front] and nothing else, the source file name of
    [front], the path of the project, no crash counted and an unset cached
    priority; the sources after the first are taken from [rest] in input
    order, none invented and none repeated from another position. *)
Theorem ctor_primary_source
    (Location_path : N → Path)
    (compareArguments : Source_h.Source → Source_h.Source → bool)
    (front : Source_h.Source) (rest : list Source_h.Source) (f : Flags)
    (proj : Project) (u : gmap N string) (next : N) :
  ∃ job next' more,
    IndexerJob_ctor Location_path compareArguments (front :: rest) f (Some proj) u next
    = Ok (job, next')
    ∧ sources job = front :: more
    ∧ sublist more rest
    ∧ visited job = {[Source_h.fileId front]}
    ∧ sourceFile job = Location_path (Source_h.fileId front)
    ∧ IndexerJob_h.project job = mPath proj
    ∧ flags job = f
    ∧ crashCount job = 0%Z
    ∧ mCachedPriority job = INT_MIN.
Proof.
  destruct (keep_prefix compareArguments rest [front]) as (more & Hkeep & Hsub).
  unfold IndexerJob_ctor. rewrite Hkeep. simpl.
  eexists _, _, more. split; [reflexivity|]. simpl. done.
Qed.

(** X8. Whatever [compareArguments] is, the constructor drops a source
    only for a kept one: every source of the input is among the sources of
    the job, or [compareArguments] holds between it and a source of the
    job. *)
Theorem ctor_drops_only_duplicates
    (Location_path : N → Path)
    (compareArguments : Source_h.Source → Source_h.Source → bool)
    (front : Source_h.Source) (rest : list Source_h.Source) (f : Flags)
    (proj : Project) (u : gmap N string) (next : N) :
  ∃ job next',
    IndexerJob_ctor Location_path compareArguments (front :: rest) f (Some proj) u next
    = Ok (job, next')
    ∧ ∀ src, src ∈ front :: rest →
        src ∈ sources job
        ∨ ∃ kept, kept ∈ sources job ∧ compareArguments src kept = true.
Proof.
  destruct (IndexerJob_ctor_Ok Location_path compareArguments front rest f proj u next)
    as (job & Hctor & Hsources & _).
  exists job, ((next + 1) mod 2 ^ 64)%N. split; [done|].
  intros src Hsrc. rewrite Hsources. by apply keep_covers.
Qed.

(** X9. When no source of the input is argument-equal to a source before
    it in the input, the constructor keeps the whole list as it is. *)
Theorem ctor_keeps_distinct_sources
    (Location_path : N → Path)
    (compareArguments : Source_h.Source → Source_h.Source → bool)
    (front : Source_h.Source) (rest : list Source_h.Source) (f : Flags)
    (proj : Project) (u : gmap N string) (next : N) :
  (∀ i j a b, j < i → (front :: rest) !! i = Some a → (front :: rest) !! j = Some b →
     compareArguments a b = false) →
  ∃ job next',
    IndexerJob_ctor Location_path compareArguments (front :: rest) f (Some proj) u next
    = Ok (job, next')
    ∧ sources job = front :: rest.
Proof.
  intros Hall.
  destruct (IndexerJob_ctor_Ok Location_path compareArguments front rest f proj u next)
    as (job & Hctor & Hsources & _).
  exists job, ((next + 1) mod 2 ^ 64)%N. split; [done|].
  rewrite Hsources. apply (keep_no_duplicates compareArguments rest [front]).
  intros pre a post b -> Hb.
  apply list_elem_of_lookup in Hb as [j Hj].
  apply (Hall (length ([front] ++ pre)) j).
  - by apply lookup_lt_Some in Hj.
  - by rewrite (list_lookup_middle ([front] ++ pre) post a).
  - by apply (lookup_app_l_Some _ (a :: post)) in Hj.
Qed.

Lemma ctor_keeps_distinct_sources_witness :
  ∃ job next',
    IndexerJob_ctor Priority.example_path same_arguments
      (Priority.example_source 1 ["-c"; "-O2"] :: [Priority.example_source 1 ["-c"; "-g"]])
      (λ _, false) (Some (Priority.example_project ∅)) ∅ 7
    = Ok (job, next')
    ∧ sources job
      = Priority.example_source 1 ["-c"; "-O2"] :: [Priority.example_source 1 ["-c"; "-g"]].
Proof.
  apply (ctor_keeps_distinct_sources Priority.example_path same_arguments).
  intros [|[|i]] [|[|j]] a b Hlt Ha Hb; simpl in *; simplify_eq; try lia.
  reflexivity.
Defined.

(** * Further properties of [IndexerJob::priority] *)

Section priority_more.
Variable Location_path : N → Path.
Variable isSystem : Path → bool.

(** What a computed priority is made of. *)
Lemma priority_Ok_inv server job v job' :
  mCachedPriority job = INT_MIN →
  priority Location_path isSystem server job = Ok (v, job') →
  job' = set_mCachedPriority v job
  ∧ ∃ first rest boost,
      sources job = first :: rest
      ∧ v = ((if flags job Dirty then 1 else if flags job Reindex then 4 else 0)
             + boost
             + (if bool_decide (is_Some (projects server !! IndexerJob_h.project job))
                   && bool_decide (currentProject server = Some (IndexerJob_h.project job))
                then 1 else 0))%Z
      ∧ match activeBufferType server (Source_h.fileId first) with
        | Active => boost = 8%Z
        | Open => boost = 3%Z
        | Inactive => boost = 0%Z ∨ boost = 2%Z
        end.
Proof.
  intros Hc. unfold priority. rewrite Hc, Z.eqb_refl.
  destruct (sources job) as [|first rest]; [done|].
  destruct (activeBufferType server (Source_h.fileId first)) eqn:Hbuf; cbn [obind].
  - destruct (projects server !! IndexerJob_h.project job) as [proj|]; [|done].
    destruct (mDependencies proj !! Source_h.fileId first) as [node|].
    + destruct (func _ _ _ _ _ _ _) as [[b s]| | |]; cbn [obind fst]; try done.
      intros ?; simplify_eq. split; [done|].
      exists first, rest, (if b then 2 else 0)%Z. split; [done|]. rewrite Hbuf.
      split; [|destruct b; [by right|by left]].
      destruct b, (flags job Dirty), (flags job Reindex),
        (bool_decide (currentProject server = Some (IndexerJob_h.project job)));
        simpl; lia.
    + cbn [obind]. intros ?; simplify_eq. split; [done|].
      exists first, rest, 0%Z. split; [done|]. rewrite Hbuf. split; [|by left].
      destruct (flags job Dirty), (flags job Reindex),
        (bool_decide (currentProject server = Some (IndexerJob_h.project job)));
        simpl; lia.
  - intros ?; simplify_eq. split; [done|].
    exists first, rest, 8%Z. split; [done|]. rewrite Hbuf. split; [|done].
    destruct (projects server !! IndexerJob_h.project job),
      (flags job Dirty), (flags job Reindex),
      (bool_decide (currentProject server = Some (IndexerJob_h.project job)));
      simpl; lia.
  - intros ?; simplify_eq. split; [done|].
    exists first, rest, 3%Z. split; [done|]. rewrite Hbuf. split; [|done].
    destruct (projects server !! IndexerJob_h.project job),
      (flags job Dirty), (flags job Reindex),
      (bool_decide (currentProject server = Some (IndexerJob_h.project job)));
      simpl; lia.
Qed.

Lemma priority_Ok_range server job v job' :
  mCachedPriority job = INT_MIN →
  priority Location_path isSystem server job = Ok (v, job') →
  job' = set_mCachedPriority v job ∧ (0 ≤ v ≤ 13)%Z.
Proof.
  intros Hc Hp.
  destruct (priority_Ok_inv server job v job' Hc Hp)
    as (Hjob & first & rest & boost & _ & -> & Hboost).
  split; [done|].
  destruct (activeBufferType server (Source_h.fileId first)),
    (flags job Dirty), (flags job Reindex), (_ && _); lia.
Qed.

(** The closure answers [false] when every node has an Inactive buffer. *)
Lemma func_false_when_inactive server deps fuel n seen b seen' :
  (∀ m node, deps !! m = Some node → activeBufferType server (fileId node) = Inactive) →
  func Location_path isSystem server deps fuel n seen = Ok (b, seen') → b = false.
Proof.
  intros Hall. revert n seen b seen'.
  induction fuel as [|fuel IH]; intros n seen b seen'; simpl; [done|].
  destruct (deps !! n) as [node|] eqn:Hn; [|by intros ?; simplify_eq].
  generalize (includes node). intros incs. revert seen.
  induction incs as [|inc incs IHincs]; intros seen; simpl.
  { by intros ?; simplify_eq. }
  case_bool_decide; [by apply IHincs|].
  destruct (isSystem _); [by apply IHincs|].
  rewrite (Hall n node Hn). rewrite bool_decide_true by done. simpl.
  destruct (func _ _ _ _ _ _ _) as [[b1 s1]| | |] eqn:Hcall; simpl; try done.
  apply IH in Hcall as ->. by apply IHincs.
Qed.

End priority_more.

(** X10. A computed priority is cached: once [priority()] has returned a
    value [v] and left the job [job'], every later call on [job'] returns
    [v] again and leaves [job'] as it is, also when buffers, focus or the
    dependency graph have changed in between. *)
Theorem priority_is_cached
    (Location_path : N → Path) (isSystem : Path → bool)
    (server server' : Server) (job job' : IndexerJob) (v : Z) :
  priority Location_path isSystem server job = Ok (v, job') →
  priority Location_path isSystem server' job' = Ok (v, job').
Proof.
  intros Hp. destruct (decide (mCachedPriority job = INT_MIN)) as [Hc|Hc].
  - destruct (priority_Ok_range Location_path isSystem server job v job' Hc Hp)
      as [-> Hv].
    rewrite priority_cached; [done|]. simpl. unfold INT_MIN. lia.
  - rewrite priority_cached in Hp by done. simplify_eq.
    by rewrite priority_cached.
Qed.

Lemma priority_is_cached_witness :
  priority example_path example_isSystem (example_server leaf_graph)
    (set_mCachedPriority 2 example_job)
  = Ok (2%Z, set_mCachedPriority 2 example_job).
Proof.
  apply (priority_is_cached example_path example_isSystem
           (example_server chain_graph) (example_server leaf_graph) example_job).
  reflexivity.
Defined.

(** X11. A priority computed for a job whose cache is unset lies between
    0 and 13, and computing it changes nothing of the job but the cache,
    which then holds the value. *)
Theorem priority_range
    (Location_path : N → Path) (isSystem : Path → bool)
    (server : Server) (job job' : IndexerJob) (v : Z) :
  mCachedPriority job = INT_MIN →
  priority Location_path isSystem server job = Ok (v, job') →
  (0 ≤ v ≤ 13)%Z ∧ job' = set_mCachedPriority v job ∧ mCachedPriority job' = v.
Proof.
  intros Hc Hp.
  destruct (priority_Ok_range Location_path isSystem server job v job' Hc Hp)
    as [-> Hv].
  done.
Qed.

Lemma priority_range_witness :
  (0 ≤ 2 ≤ 13)%Z
  ∧ set_mCachedPriority 2 example_job = set_mCachedPriority 2 example_job
  ∧ mCachedPriority (set_mCachedPriority 2 example_job) = 2%Z.
Proof.
  apply (priority_range example_path example_isSystem (example_server chain_graph)
           example_job); reflexivity.
Defined.

(** X12. Of the flags [priority()] reads Dirty, and Reindex when Dirty is
    not set, and nothing else: two jobs that differ in their flags only,
    the flags agreeing on Dirty and, where Dirty is not set, on Reindex,
    get the same priority and are left the same but for their flags.  So
    with Dirty set Reindex makes no difference, and Compile, Running,
    Crashed, Aborted and Complete never do. *)
Theorem priority_reads_dirty_then_reindex
    (Location_path : N → Path) (isSystem : Path → bool)
    (server : Server) (job : IndexerJob) (f1 f2 : Flags) (v : Z) (job1 : IndexerJob) :
  f1 Dirty = f2 Dirty →
  (f1 Dirty = false → f1 Reindex = f2 Reindex) →
  priority Location_path isSystem server (set_flags f1 job) = Ok (v, job1) →
  priority Location_path isSystem server (set_flags f2 job) = Ok (v, set_flags f2 job1).
Proof.
  intros Hd Hr. unfold priority. simpl. rewrite <- Hd.
  assert ((if f1 Dirty then (0 + 1)%Z else if f2 Reindex then (0 + 4)%Z else 0%Z)
          = (if f1 Dirty then (0 + 1)%Z else if f1 Reindex then (0 + 4)%Z else 0%Z))
    as -> by (destruct (f1 Dirty); [done|by rewrite Hr]).
  destruct (mCachedPriority job =? INT_MIN)%Z.
  - destruct (sources job) as [|first rest]; [done|].
    destruct (match activeBufferType server (Source_h.fileId first) with
              | Inactive => _ | Active => _ | Open => _ end) as [ret| | |];
      cbn [obind]; try done.
    intros ?; simplify_eq. reflexivity.
  - intros ?; simplify_eq. reflexivity.
Qed.

Lemma priority_reads_dirty_then_reindex_witness :
  priority example_path example_isSystem (example_server chain_graph)
    (set_flags (λ f, match f with Dirty => false | _ => true end) example_job)
  = Ok (6%Z,
        set_flags (λ f, match f with Dirty => false | _ => true end)
          (set_mCachedPriority 6
             (set_flags (λ f, match f with Reindex => true | _ => false end)
                example_job))).
Proof.
  apply (priority_reads_dirty_then_reindex example_path example_isSystem
           (example_server chain_graph) example_job
           (λ f, match f with Reindex => true | _ => false end)
           (λ f, match f with Dirty => false | _ => true end)).
  - reflexivity.
  - reflexivity.
  - reflexivity.
Defined.

(** X13. [recalculatePriority] drops whatever was cached and stores the
    value that [priority()] computes for the server as it is now: for a job
    with a source whose project the server knows, the result is the job
    with only its cache changed, to a value between 0 and 13 that does not
    depend on the value cached before. *)
Theorem recalculatePriority_refreshes
    (Location_path : N → Path) (isSystem : Path → bool)
    (server : Server) (job : IndexerJob) (first : Source_h.Source)
    (rest : list Source_h.Source) (proj : Project) (stale : Z) :
  sources job = first :: rest →
  projects server !! IndexerJob_h.project job = Some proj →
  ∃ v,
    recalculatePriority Location_path isSystem server job
    = Ok (set_mCachedPriority v job)
    ∧ recalculatePriority Location_path isSystem server (set_mCachedPriority stale job)
      = Ok (set_mCachedPriority v job)
    ∧ (0 ≤ v ≤ 13)%Z.
Proof.
  intros Hs Hp. unfold recalculatePriority.
  destruct (priority_computed Location_path isSystem server
              (set_mCachedPriority INT_MIN job) first rest proj)
    as (boost & Hprio & Hboost); [done..|].
  change (set_mCachedPriority INT_MIN (set_mCachedPriority stale job))
    with (set_mCachedPriority INT_MIN job).
  rewrite Hprio. cbn [obind snd]. eexists. split; [reflexivity|]. split; [reflexivity|].
  simpl.
  destruct (activeBufferType server (Source_h.fileId first)),
    (flags job Dirty), (flags job Reindex), (bool_decide _); lia.
Qed.

Lemma recalculatePriority_refreshes_witness :
  ∃ v,
    recalculatePriority example_path example_isSystem (example_server chain_graph)
      example_job = Ok (set_mCachedPriority v example_job)
    ∧ recalculatePriority example_path example_isSystem (example_server chain_graph)
        (set_mCachedPriority 7 example_job) = Ok (set_mCachedPriority v example_job)
    ∧ (0 ≤ v ≤ 13)%Z.
Proof.
  apply (recalculatePriority_refreshes example_path example_isSystem
           (example_server chain_graph) example_job
           (example_source 1 ["-c"]) [] (example_project chain_graph) 7);
    reflexivity.
Defined.

(** X14. When the buffer of every file of the dependency graph is
    Inactive, the traversal adds nothing: for a job with an unset cache
    and a source whose project the server knows, [priority()] is the part
    for the flags (1 for Dirty, else 4 for Reindex) plus 1 if the project
    is the focused one. *)
Theorem priority_all_inactive
    (Location_path : N → Path) (isSystem : Path → bool)
    (server : Server) (job : IndexerJob) (first : Source_h.Source)
    (rest : list Source_h.Source) (proj : Project) :
  mCachedPriority job = INT_MIN →
  sources job = first :: rest →
  projects server !! IndexerJob_h.project job = Some proj →
  (∀ f, activeBufferType server f = Inactive) →
  ∃ job',
    priority Location_path isSystem server job
    = Ok (((if flags job Dirty then 1 else if flags job Reindex then 4 else 0)
           + (if bool_decide (currentProject server = Some (IndexerJob_h.project job))
              then 1 else 0))%Z, job').
Proof.
  intros Hc Hs Hp Hall. unfold priority.
  rewrite Hc, Z.eqb_refl, Hs, Hp, Hall. rewrite bool_decide_true by eauto. cbn [andb].
  destruct (mDependencies proj !! Source_h.fileId first) as [node|].
  - destruct (func_returns_in_bound Location_path isSystem server
                (mDependencies proj) (Source_h.fileId first)
                {[Source_h.fileId first]}) as (b & seen' & Hfunc & _).
    rewrite Hfunc. cbn [obind fst].
    apply func_false_when_inactive in Hfunc as ->; [|by intros; apply Hall].
    eexists. f_equal. f_equal.
    destruct (flags job Dirty), (flags job Reindex), (bool_decide _); lia.
  - cbn [obind]. eexists. f_equal. f_equal.
    destruct (flags job Dirty), (flags job Reindex), (bool_decide _); lia.
Qed.

Lemma priority_all_inactive_witness :
  ∃ job',
    priority example_path example_isSystem
      (with_buffer 2 Inactive (example_server chain_graph)) example_job
    = Ok (0%Z, job').
Proof.
  apply (priority_all_inactive example_path example_isSystem
           (with_buffer 2 Inactive (example_server chain_graph)) example_job
           (example_source 1 ["-c"]) [] (example_project chain_graph));
    try reflexivity.
  intros f. simpl. by destruct (f =? 2)%N.
Defined.

Import SystemExamples.

(** X15. The closure never descends from a system header: called on a
    node whose own file is a system header it marks every include of the
    node as seen and answers [false], whatever the buffers are. *)
Theorem func_system_root
    (Location_path : N → Path) (isSystem : Path → bool) (server : Server)
    (deps : gmap N DependencyNode) (fuel : nat) (n : N) (node : DependencyNode)
    (seen : gset N) :
  deps !! n = Some node →
  isSystem (Location_path (fileId node)) = true →
  func Location_path isSystem server deps (S fuel) n seen
  = Ok (false, list_to_set (includes node) ∪ seen).
Proof.
  intros Hn Hsys. simpl. rewrite Hn.
  generalize (includes node). intros incs. revert seen.
  induction incs as [|inc incs IH]; intros seen; simpl.
  - f_equal. f_equal. set_solver.
  - rewrite Hsys. case_bool_decide as Hin; rewrite IH; do 2 f_equal; set_solver.
Qed.

Lemma func_system_root_witness :
  func system_path example_isSystem (example_server chain_graph) chain_graph 1 1 {[1%N]}
  = Ok (false, list_to_set [2%N] ∪ {[1%N]}).
Proof.
  apply (func_system_root system_path example_isSystem (example_server chain_graph)
           chain_graph 0 1 (node 1 [2%N])); reflexivity.
Defined.

(** X16. The closure answers [true] only on account of an including
    file: when it returns [true], the graph has a node that is not a
    system header, includes something, and whose own buffer is Active or
    Open. *)
Theorem func_true_has_active_includer
    (Location_path : N → Path) (isSystem : Path → bool) (server : Server)
    (deps : gmap N DependencyNode) (fuel : nat) (n : N) (seen seen' : gset N) :
  func Location_path isSystem server deps fuel n seen = Ok (true, seen') →
  ∃ m node inc,
    deps !! m = Some node ∧ inc ∈ includes node
    ∧ isSystem (Location_path (fileId node)) = false
    ∧ activeBufferType server (fileId node) ≠ Inactive.
Proof.
  revert n seen seen'.
  induction fuel as [|fuel IH]; intros n seen seen'; simpl; [done|].
  destruct (deps !! n) as [node|] eqn:Hn; [|done].
  assert (∀ incs seen,
            for_includes Location_path isSystem server
              (func Location_path isSystem server deps fuel) node incs seen
            = Ok (true, seen') →
            (∃ inc, inc ∈ incs
                    ∧ isSystem (Location_path (fileId node)) = false
                    ∧ activeBufferType server (fileId node) ≠ Inactive)
            ∨ ∃ m s, func Location_path isSystem server deps fuel m s = Ok (true, seen'))
    as Hloop.
  { induction incs as [|inc incs IHincs]; intros s; simpl; [done|].
    assert (∀ s', for_includes Location_path isSystem server
                    (func Location_path isSystem server deps fuel) node incs s'
                  = Ok (true, seen') →
                  (∃ inc0, inc0 ∈ inc :: incs
                           ∧ isSystem (Location_path (fileId node)) = false
                           ∧ activeBufferType server (fileId node) ≠ Inactive)
                  ∨ ∃ m s0, func Location_path isSystem server deps fuel m s0
                            = Ok (true, seen')) as Hrest.
    { intros s' Hs'. destruct (IHincs s' Hs') as [(i & Hi & ? & ?)|?]; [|by right].
      left. exists i. split; [set_solver|done]. }
    case_bool_decide; [by apply Hrest|].
    destruct (isSystem _) eqn:Hsys; [by apply Hrest|].
    case_bool_decide as Hbuf; simpl.
    - destruct (func _ _ _ _ _ _ _) as [[b1 s1]| | |] eqn:Hcall; simpl; try done.
      destruct b1; [|by apply Hrest].
      intros ?; simplify_eq. right. eauto.
    - intros _. left. exists inc. split; [set_solver|done]. }
  intros Hcall. destruct (Hloop _ _ Hcall) as [(inc & Hinc & Hsys & Hbuf)|(m & s & Hrec)].
  - by exists n, node, inc.
  - by apply (IH m s seen').
Qed.

Lemma func_true_has_active_includer_witness :
  ∃ m node inc,
    chain_graph !! m = Some node ∧ inc ∈ includes node
    ∧ example_isSystem (example_path (fileId node)) = false
    ∧ activeBufferType (example_server chain_graph) (fileId node) ≠ Inactive.
Proof.
  apply (func_true_has_active_includer example_path example_isSystem
           (example_server chain_graph) chain_graph (depth_bound chain_graph)
           1 {[1%N]} ({[3%N]} ∪ ({[2%N]} ∪ {[1%N]}))).
  reflexivity.
Defined.

(** * Further properties of [IndexerJob::encode] and [dumpFlags] *)

Section encode_more.
Variable applyToSource : Source_h.Source → Source_h.Source.
Variable fixPCH : Project → Source_h.Source → Source_h.Source.

(** With a project at hand one source is written exactly when the job has
    a source file name; otherwise the assertion in the loop stops it. *)
Lemma transform_with_project o pr sourceFile src :
  (sourceFile ≠ "" ∧
     ∃ copy before,
       transform applyToSource fixPCH o (Some pr) sourceFile src = Ok copy
       ∧ Source_h.defines copy
         = (if negb (options o EnableNDEBUG)
            then (Source_h.defines before ∪ defines o) ∖ {[("NDEBUG", "")]}
            else Source_h.defines before ∪ defines o))
  ∨ (sourceFile = ""
     ∧ transform applyToSource fixPCH o (Some pr) sourceFile src = AssertionFailed).
Proof.
  unfold transform.
  set (c5 := Source_h.set_includePaths _ _).
  set (c6 := if options o PCHEnabled then Ok (fixPCH pr c5) else Ok c5).
  assert (∃ c, c6 = Ok c) as (c & ->).
  { unfold c6. destruct (options o PCHEnabled); eauto. }
  cbn [obind]. destruct (decide (sourceFile = "")) as [->|Hsf].
  - right. done.
  - left. split; [done|]. apply isEmpty_false in Hsf as ->. cbn [negb assert obind].
    eexists _, c. split; [reflexivity|].
    by destruct (negb (options o EnableNDEBUG)).
Qed.

Lemma transform_all_with_project o pr sourceFile srcs :
  (∃ copies,
     transform_all applyToSource fixPCH o (Some pr) sourceFile srcs = Ok copies
     ∧ length copies = length srcs
     ∧ (srcs = [] ∨ sourceFile ≠ "")
     ∧ Forall (λ copy, ∃ before,
                 Source_h.defines copy
                 = (if negb (options o EnableNDEBUG)
                    then (Source_h.defines before ∪ defines o) ∖ {[("NDEBUG", "")]}
                    else Source_h.defines before ∪ defines o)) copies)
  ∨ (transform_all applyToSource fixPCH o (Some pr) sourceFile srcs = AssertionFailed
     ∧ srcs ≠ [] ∧ sourceFile = "").
Proof.
  induction srcs as [|src srcs IH]; simpl.
  - left. exists []. split; [done|]. split; [done|]. split; [by left|]. constructor.
  - destruct (transform_with_project o pr sourceFile src)
      as [(Hsf & copy & before & -> & Hdef)|(-> & ->)]; [|by right].
    cbn [obind].
    destruct IH as [(copies & -> & Hlen & _ & Hall)|(-> & _ & ->)]; [|done].
    left. eexists. split; [reflexivity|]. simpl. split; [by rewrite Hlen|].
    split; [by right|]. constructor; [by exists before|done].
Qed.

(** Without a project nothing gets past [assert(proj)]. *)
Lemma encode_without_project DatabaseVersion server job payload :
  projects server !! IndexerJob_h.project job = None →
  encode applyToSource fixPCH DatabaseVersion server job ≠ Ok payload.
Proof.
  intros Hp. unfold encode. rewrite Hp.
  destruct (transform_all _ _ _ _ _ _) as [copies| | |]; cbn [obind]; try done.
Qed.

End encode_more.

(** X17. [encode] completes exactly when the server knows the project of
    the job and the job has a source file name or no source at all; with a
    known project the only other outcome is a failed assertion. *)
Theorem encode_completes_iff
    (applyToSource : Source_h.Source → Source_h.Source)
    (fixPCH : Project → Source_h.Source → Source_h.Source)
    (DatabaseVersion : Z) (server : Server) (job : IndexerJob) :
  ((∃ payload, encode applyToSource fixPCH DatabaseVersion server job = Ok payload)
   ↔ is_Some (projects server !! IndexerJob_h.project job)
     ∧ (sources job = [] ∨ sourceFile job ≠ ""))
  ∧ (is_Some (projects server !! IndexerJob_h.project job) →
     (∃ payload, encode applyToSource fixPCH DatabaseVersion server job = Ok payload)
     ∨ encode applyToSource fixPCH DatabaseVersion server job = AssertionFailed).
Proof.
  destruct (projects server !! IndexerJob_h.project job) as [pr|] eqn:Hp.
  - assert ((∃ payload, encode applyToSource fixPCH DatabaseVersion server job = Ok payload)
            ∧ (sources job = [] ∨ sourceFile job ≠ "")
            ∨ encode applyToSource fixPCH DatabaseVersion server job = AssertionFailed
              ∧ sources job ≠ [] ∧ sourceFile job = "") as Hcases.
    { unfold encode. rewrite Hp.
      destruct (transform_all_with_project applyToSource fixPCH (serverOptions server)
                  pr (sourceFile job) (sources job))
        as [(copies & -> & _ & Hok & _)|(-> & Hne & Hsf)].
      - left. cbn [obind]. rewrite bool_decide_true by eauto. cbn [assert obind].
        split; [by eexists|done].
      - right. done. }
    split.
    + split.
      * intros [payload Hpayload]. split; [by eexists|].
        destruct Hcases as [[_ ?]|[Hfail _]]; [done|congruence].
      * intros [_ Hok]. destruct Hcases as [[? _]|(_ & Hne & Hsf)]; [done|].
        destruct Hok; done.
    + intros _. destruct Hcases as [[? _]|[? _]]; [by left|by right].
  - split.
    + split.
      * intros [payload Hpayload].
        by destruct (encode_without_project applyToSource fixPCH DatabaseVersion
                       server job payload Hp).
      * intros [[? ?] _]. done.
    + intros [? ?]. done.
Qed.

(** X18. With NDEBUG not enabled no source of the payload carries the
    define [NDEBUG] without a value, the one that [Source::Define("NDEBUG")]
    stands for, wherever it came from; every other define of the server
    options, [NDEBUG] with a value among them, is among the defines of
    every source of the payload, and with NDEBUG enabled all of them
    are. *)
Theorem encode_merges_defines
    (applyToSource : Source_h.Source → Source_h.Source)
    (fixPCH : Project → Source_h.Source → Source_h.Source)
    (DatabaseVersion : Z) (server : Server) (job : IndexerJob) (payload : Payload)
    (copy : Source_h.Source) :
  encode applyToSource fixPCH DatabaseVersion server job = Ok payload →
  copy ∈ pl_sources payload →
  (options (serverOptions server) EnableNDEBUG = false →
     ("NDEBUG", "") ∉ Source_h.defines copy)
  ∧ (∀ d, d ∈ defines (serverOptions server) →
       d ≠ ("NDEBUG", "") ∨ options (serverOptions server) EnableNDEBUG = true →
       d ∈ Source_h.defines copy).
Proof.
  intros Henc Hcopy.
  destruct (projects server !! IndexerJob_h.project job) as [pr|] eqn:Hp.
  2:{ by destruct (encode_without_project applyToSource fixPCH DatabaseVersion
                     server job payload Hp). }
  revert Henc. unfold encode. rewrite Hp.
  destruct (transform_all_with_project applyToSource fixPCH (serverOptions server)
              pr (sourceFile job) (sources job))
    as [(copies & -> & _ & _ & Hall)|(-> & _)]; [|done].
  cbn [obind]. rewrite bool_decide_true by eauto. cbn [assert obind].
  intros ?; simplify_eq. simpl in Hcopy.
  rewrite Forall_forall in Hall. destruct (Hall copy Hcopy) as (before & ->).
  split.
  - intros ->. simpl. set_solver.
  - intros d Hd [Hne| ->]; [|set_solver].
    destruct (negb _); set_solver.
Qed.

Lemma encode_merges_defines_witness :
  ∃ payload copy,
    encode no_applyToSource no_fixPCH 1 DefineExamples.server_with_defines
      DefineExamples.job_with_defines = Ok payload
    ∧ pl_sources payload = [copy]
    ∧ ("BAR", "") ∈ Source_h.defines copy
    ∧ ("NDEBUG", "") ∉ Source_h.defines copy
    ∧ ("NDEBUG", "1") ∈ Source_h.defines copy
    ∧ ("FOO", "") ∈ Source_h.defines copy.
Proof.
  eexists _, _. split; [reflexivity|]. split; [reflexivity|].
  split; [simpl; set_solver|].
  match goal with
  | |- _ ∉ Source_h.defines ?c ∧ _ =>
      destruct (encode_merges_defines no_applyToSource no_fixPCH 1
                  DefineExamples.server_with_defines DefineExamples.job_with_defines
                  _ c eq_refl) as [Habsent Hmerged]
  end.
  - simpl. apply list_elem_of_here.
  - split; [by apply Habsent|].
    split; apply Hmerged; try (left; discriminate); simpl; set_solver.
Defined.



(** X20. [dumpFlags] gives the empty string exactly for the empty set of
    flags. *)
Theorem dumpFlags_empty_iff (flags : Flags) :
  dumpFlags flags = "" ↔ ∀ f, flags f = false.
Proof.
  unfold dumpFlags, flagNames. split.
  - destruct (flags Dirty) eqn:?, (flags Reindex) eqn:?, (flags Compile) eqn:?,
      (flags Running) eqn:?, (flags Crashed) eqn:?, (flags Aborted) eqn:?,
      (flags Complete) eqn:?; try discriminate.
    intros _ []; done.
  - intros Hnone. by rewrite !Hnone.
Qed.

Example dumpFlags_two :
  dumpFlags (λ f, match f with Dirty | Running => true | _ => false end)
  = "Dirty, Running".
Proof. reflexivity. Qed.

Section pedantic_facts.

Lemma at_most_once_tail x z l : at_most_once x (z :: l) → at_most_once x l.
Proof. intros H i j Hi Hj. specialize (H (S i) (S j) Hi Hj). lia. Qed.

Lemma at_most_once_erase_first_app x y l d :
  at_most_once x (l ++ d) → at_most_once x (erase_first y l ++ d).
Proof.
  induction l as [|z l IH]; intros Honce; simpl; [done|].
  simpl in Honce. pose proof (at_most_once_tail x z _ Honce) as Hl.
  case_bool_decide; [done|].
  assert (∀ k, (erase_first y l ++ d) !! k = Some x → ∃ k', (l ++ d) !! k' = Some x)
    as Hback.
  { intros k Hk. apply list_elem_of_lookup.
    apply list_elem_of_lookup_2, elem_of_app in Hk as [Hk|Hk];
      apply elem_of_app; [left; by eapply erase_first_elem_of|by right]. }
  intros [|i] [|j] Hi Hj; simpl in *; simplify_eq; try done.
  - destruct (Hback j Hj) as [k Hk]. by specialize (Honce 0 (S k) eq_refl Hk).
  - destruct (Hback i Hi) as [k Hk]. by specialize (Honce (S k) 0 Hk eq_refl).
  - f_equal. by apply (IH Hl).
Qed.

End pedantic_facts.

(** X21. [-Wpedantic] is looked for after the default arguments have been
    appended: with pedantic mode not allowed, a [-Wpedantic] that occurs
    at most once in the arguments of a source and the default arguments
    taken together is in no argument list of the payload, provided the
    compiler manager and the PCH substitution do not bring it in. *)
Theorem encode_strips_Wpedantic
    (applyToSource : Source_h.Source → Source_h.Source)
    (fixPCH : Project → Source_h.Source → Source_h.Source)
    (DatabaseVersion : Z) (server : Server) (job : IndexerJob) (payload : Payload) :
  options (serverOptions server) AllowPedantic = false →
  (∀ s, "-Wpedantic" ∉ Source_h.arguments s →
        "-Wpedantic" ∉ Source_h.arguments (applyToSource s)) →
  (∀ pr s, "-Wpedantic" ∉ Source_h.arguments s →
           "-Wpedantic" ∉ Source_h.arguments (fixPCH pr s)) →
  Forall (λ src, at_most_once "-Wpedantic"
                   (Source_h.arguments src ++ defaultArguments (serverOptions server)))
         (sources job) →
  encode applyToSource fixPCH DatabaseVersion server job = Ok payload →
  Forall (λ copy, "-Wpedantic" ∉ Source_h.arguments copy) (pl_sources payload).
Proof.
  intros Hallow Happly Hpch Hsrcs Henc.
  destruct (projects server !! IndexerJob_h.project job) as [pr|] eqn:Hp.
  2:{ by destruct (encode_without_project applyToSource fixPCH DatabaseVersion
                     server job payload Hp). }
  revert Henc. unfold encode. rewrite Hp.
  assert (∀ copies,
            transform_all applyToSource fixPCH (serverOptions server) (Some pr)
              (sourceFile job) (sources job) = Ok copies →
            Forall (λ copy, "-Wpedantic" ∉ Source_h.arguments copy) copies) as Hall.
  { induction Hsrcs as [|src srcs Honce _ IH]; simpl; intros copies.
    { intros ?; simplify_eq. constructor. }
    destruct (transform _ _ _ _ _ src) as [copy| | |] eqn:Hcopy; cbn [obind]; try done.
    destruct (transform_all _ _ _ _ _ srcs) as [rest| | |]; cbn [obind]; try done.
    intros ?; simplify_eq. constructor; [|by apply IH].
    revert Hcopy. unfold transform. rewrite Hallow. cbn [negb].
    set (a1 := if negb (options (serverOptions server) AllowWErrorAndWFatalErrors)
               then _ else src).
    assert (at_most_once "-Wpedantic"
              (Source_h.arguments a1 ++ defaultArguments (serverOptions server))) as H1.
    { unfold a1. destruct (negb _); [|done]. simpl.
      by do 2 apply at_most_once_erase_first_app. }
    set (c3 := Source_h.set_arguments (erase_first "-Wpedantic" _) _).
    assert ("-Wpedantic" ∉ Source_h.arguments c3) as H3.
    { unfold c3. simpl. by apply erase_first_at_most_once. }
    set (c4 := if options (serverOptions server) EnableCompilerManager then _ else c3).
    assert ("-Wpedantic" ∉ Source_h.arguments c4) as H4.
    { unfold c4. destruct (options _ EnableCompilerManager); [by apply Happly|done]. }
    set (c5 := Source_h.set_includePaths _ (filterBlockedArguments _ c4)).
    assert ("-Wpedantic" ∉ Source_h.arguments c5) as H5.
    { unfold c5, filterBlockedArguments. simpl. rewrite list_elem_of_filter. tauto. }
    set (c6 := if options (serverOptions server) PCHEnabled then Ok (fixPCH pr c5) else Ok c5).
    assert (∃ c, c6 = Ok c ∧ "-Wpedantic" ∉ Source_h.arguments c) as (c & -> & H6).
    { unfold c6. destruct (options _ PCHEnabled); eauto. }
    cbn [obind]. destruct (negb (isEmpty (sourceFile job))); cbn [assert obind]; [|done].
    intros ?; simplify_eq. by destruct (negb (options _ EnableNDEBUG)). }
  destruct (transform_all _ _ _ _ _ _) as [copies| | |]; cbn [obind]; try done.
  rewrite bool_decide_true by eauto. cbn [assert obind].
  intros ?; simplify_eq. simpl. by apply Hall.
Qed.

Lemma encode_strips_Wpedantic_witness :
  Forall (λ copy, "-Wpedantic" ∉ Source_h.arguments copy)
         [Priority.example_source 1 ["-c"]].
Proof.
  apply (encode_strips_Wpedantic no_applyToSource no_fixPCH 1
           (server_with_defaults ["-Wpedantic"]) (job_with_arguments ["-c"])
           {| pl_version := 1; pl_sandboxRoot := ""; pl_id := 1;
              pl_socketFile := "/tmp/rdm"; pl_project := "/p/"; pl_sourceCount := 1;
              pl_sources := [Priority.example_source 1 ["-c"]];
              pl_sourceFile := "/src/a.cpp"; pl_flags := λ _, false;
              pl_rpVisitFileTimeout := 60000; pl_rpIndexDataMessageTimeout := 60000;
              pl_rpConnectTimeout := 0; pl_rpConnectAttempts := 3; pl_rpNiceValue := 0;
              pl_options := λ _, false; pl_unsavedFiles := ∅; pl_dataDir := "/tmp/rtags";
              pl_debugLocations := []; pl_visitedFiles := ∅ |}).
  - reflexivity.
  - intros s Hs. exact Hs.
  - intros pr s Hs. exact Hs.
  - apply Forall_cons. split; [|by apply Forall_nil].
    intros [|[|i]] [|[|j]]; simpl; rewrite ?lookup_nil; congruence.
  - reflexivity.
Defined.

(** * Further properties of [ListSymbolsJob.cpp] *)

Section string_facts.

Lemma isEmpty_true' s : isEmpty s = true → s = "".
Proof. unfold isEmpty. by rewrite bool_decide_eq_true. Qed.

Lemma endsWith_append_star s : endsWith "*" (s +:+ "*") = true.
Proof.
  induction s as [|c s IH]; [done|]. rewrite append_cons. simpl.
  destruct (s +:+ "*") eqn:Hs; [by destruct s|done].
Qed.

(** Where [indexOf] finds the character, nothing before it is the
    character. *)
Lemma indexOf_from_spec c s i :
  (indexOf_from c s i = (-1)%Z ∧ contains_char c s = false)
  ∨ ∃ k, indexOf_from c s i = (i + Z.of_nat k)%Z
         ∧ contains_char c (String.substring 0 k s) = false.
Proof.
  revert i. induction s as [|d s IH]; intros i; simpl; [by left|].
  destruct (Ascii.eqb d c) eqn:Hd.
  - right. exists 0. split; [lia|done].
  - destruct (IH (i + 1)%Z) as [[-> Hc]|(k & -> & Hk)]; [by left|].
    right. exists (S k). split; [lia|]. simpl. by rewrite Hd.
Qed.

Lemma left_indexOf_no_char c s :
  indexOf c s ≠ (-1)%Z → contains_char c (left (indexOf c s) s) = false.
Proof.
  unfold indexOf, left. destruct (indexOf_from_spec c s 0) as [[-> _]|(k & -> & Hk)];
    [done|].
  intros _. by rewrite Z.add_0_l, Nat2Z.id.
Qed.

Lemma indexOf_none_no_char c s :
  indexOf c s = (-1)%Z → contains_char c s = false.
Proof.
  unfold indexOf. destruct (indexOf_from_spec c s 0) as [[_ ?]|(k & -> & _)]; [done|lia].
Qed.

#[local] Instance le_trans : Transitive le.
Proof.
  intros a b c. unfold le. rewrite <- !Is_true_true.
  apply (transitivity (R := String.le)).
Qed.

#[local] Instance le_antisym : AntiSymm (=) le.
Proof. intros a b Hab Hba. by apply String.leb_antisym. Qed.

#[local] Instance le_total : Total le.
Proof. intros a b. apply String.leb_total. Qed.

#[local] Instance ge_total : Total ge.
Proof. intros a b. unfold ge. apply String.leb_total. Qed.

#[local] Instance ge_trans : Transitive ge.
Proof. intros a b c Hab Hbc. unfold ge in *. by transitivity b. Qed.

#[local] Instance ge_antisym : AntiSymm (=) ge.
Proof. intros a b Hab Hba. unfold ge in *. by apply (anti_symm le). Qed.

Lemma StronglySorted_reverse_ge l : StronglySorted le l → StronglySorted ge (reverse l).
Proof.
  induction 1 as [|x l Hl IH Hx]; [constructor|].
  rewrite reverse_cons. apply StronglySorted_app_2.
  - intros a b Ha Hb. apply list_elem_of_singleton in Hb as ->.
    rewrite elem_of_reverse in Ha. rewrite Forall_forall in Hx. unfold ge.
    by apply Hx.
  - done.
  - repeat constructor.
Qed.

(** Sorting a sorted list again changes nothing; sorting it downwards
    reverses it. *)
Lemma merge_sort_le_sorted l : StronglySorted le l → merge_sort le l = l.
Proof.
  intros Hl. apply (StronglySorted_unique le); [|done|].
  - apply StronglySorted_merge_sort; apply _.
  - apply merge_sort_Permutation.
Qed.

Lemma merge_sort_ge_sorted l : StronglySorted le l → merge_sort ge l = reverse l.
Proof.
  intros Hl. apply (StronglySorted_unique ge).
  - apply StronglySorted_merge_sort; apply _.
  - by apply StronglySorted_reverse_ge.
  - rewrite merge_sort_Permutation. by rewrite reverse_Permutation.
Qed.

Lemma merge_sort_le_StronglySorted l : StronglySorted le (merge_sort le l).
Proof. apply StronglySorted_merge_sort; apply _. Qed.

End string_facts.

(** X22. The extension of the query is done once: extending an extended
    job changes nothing, only the query string is ever changed, and every
    query that the scans treat as a wildcard pattern ends in [*]. *)
Theorem extend_idempotent (job : ListSymbolsJob) :
  extend (extend job) = extend job
  ∧ queryFlags (extend job) = queryFlags job
  ∧ pathFilters (extend job) = pathFilters job
  ∧ project (extend job) = project job
  ∧ (wildcard (extend job) = true → endsWith "*" (string_ (extend job)) = true).
Proof.
  unfold extend, wildcard.
  destruct (queryFlags job WildcardSymbolNames) eqn:Hflag; simpl; [|by rewrite Hflag].
  destruct (contains_char "*" (string_ job) || contains_char "?" (string_ job)) eqn:Hw;
    simpl; [|by rewrite Hflag, Hw].
  destruct (endsWith "*" (string_ job)) eqn:He; simpl.
  - by rewrite Hflag, Hw, He.
  - rewrite Hflag. simpl. rewrite endsWith_append_star, andb_false_r. done.
Qed.

(** X23. The path filters select the scan all together or not at all:
    the paths collected by [execute] are the patterns of all the filters,
    in order, when every filter has mode [Self] and names a file, and
    there are none as soon as one filter does not. *)
Theorem collectPaths_all_or_nothing
    (isFile : Path → bool) (filters : list PathFilter) (paths : list Path) :
  collectPaths isFile filters paths
  = if forallb (λ f, match mode f with
                     | Self => isFile (pattern f)
                     | Dependencies => false
                     end) filters
    then paths ++ (pattern <$> filters)
    else [].
Proof.
  revert paths. induction filters as [|f filters IH]; intros paths; simpl.
  - by rewrite app_nil_r.
  - destruct (mode f); [|done].
    destruct (isFile (pattern f)); [|done]. simpl.
    rewrite IH. destruct (forallb _ filters); [|done]. by rewrite <- app_assoc.
Qed.

Import ListingStatements.

Section scan_facts.
Variable matchSymbolName : string → string → CaseSensitivity → bool.
Variable isFunctionVariable : string → bool.
Variable filterKind : Symbol → bool.
Variable hasFilter hasKindFilter : bool.
Variable filter_ : Path → bool.
Variable Location_fileId : Path → N.
Variable Location_path : N → Path.
Variable openSymbols : Project → N → option (list Symbol).
Variable findSymbol : Project → Location → Symbol.

Lemma bare_insert s out : contains_char "(" s = false → bare out → bare ({[s]} ∪ out).
Proof.
  intros Hs Hout t Ht. apply elem_of_union in Ht as [Ht|Ht]; [|by apply Hout].
  by apply elem_of_singleton in Ht as ->.
Qed.

Lemma scanSymbol_bare job out symbol :
  queryFlags job StripParentheses = true → bare out →
  bare (scanSymbol matchSymbolName isFunctionVariable filterKind job out symbol).
Proof.
  intros Hstrip Hout. unfold scanSymbol. rewrite Hstrip.
  destruct (negb (filterKind symbol)); [done|].
  destruct (isEmpty _); [done|]. destruct (negb (nameMatches _ _ _)); [done|].
  destruct (Z.eqb_spec (indexOf "(" (symbolName symbol)) (-1)) as [Hp|Hp].
  - apply bare_insert; [|done]. by apply indexOf_none_no_char.
  - destruct (negb _); [|done]. apply bare_insert; [|done].
    by apply left_indexOf_no_char.
Qed.

Lemma scan_table_bare job out symbols :
  queryFlags job StripParentheses = true → bare out →
  bare (foldl (scanSymbol matchSymbolName isFunctionVariable filterKind job) out symbols).
Proof.
  intros Hstrip. revert out.
  induction symbols as [|symbol symbols IH]; intros out Hout; simpl; [done|].
  apply IH. by apply scanSymbol_bare.
Qed.

Lemma listSymbolsWithPathFilter_bare job proj paths :
  queryFlags job StripParentheses = true →
  bare (listSymbolsWithPathFilter matchSymbolName isFunctionVariable filterKind
          Location_fileId openSymbols job proj paths).
Proof.
  intros Hstrip. unfold listSymbolsWithPathFilter.
  assert (bare ∅) as Hempty by (intros s Hs; set_solver).
  revert Hempty. generalize (∅ : gset string).
  induction paths as [|file paths IH]; intros out Hout; simpl; [done|].
  apply IH. destruct (_ =? _)%N; [done|].
  destruct (openSymbols proj _); [|done]. by apply scan_table_bare.
Qed.

Lemma inserter_bare job proj out str locations out' :
  queryFlags job StripParentheses = true → bare out →
  inserter isFunctionVariable filterKind hasFilter hasKindFilter filter_
    Location_path findSymbol job proj out str locations = Ok out' →
  bare out'.
Proof.
  intros Hstrip Hout. unfold inserter. rewrite Hstrip.
  destruct (hasFilter && _); [by intros ?; simplify_eq|].
  destruct (if hasKindFilter then _ else _) as [ok| | |]; cbn [obind]; try done.
  destruct (negb ok); [by intros ?; simplify_eq|].
  destruct (Z.eqb_spec (indexOf "(" str) (-1)) as [Hp|Hp]; intros ?; simplify_eq.
  - apply bare_insert; [|done]. by apply indexOf_none_no_char.
  - simpl. destruct (negb _); [|done]. apply bare_insert; [|done].
    by apply left_indexOf_no_char.
Qed.

Lemma insertAll_bare job proj out l out' :
  queryFlags job StripParentheses = true → bare out →
  insertAll isFunctionVariable filterKind hasFilter hasKindFilter filter_
    Location_path findSymbol job proj out l = Ok out' →
  bare out'.
Proof.
  intros Hstrip. revert out.
  induction l as [|[str locations] l IH]; intros out Hout; simpl.
  - by intros ?; simplify_eq.
  - destruct (inserter _ _ _ _ _ _ _ _ _ _ _ _) as [out1| | |] eqn:Hins;
      cbn [obind]; try done.
    apply IH. by eapply inserter_bare.
Qed.

(** What one table adds to the result when parentheses are kept. *)
Lemma scan_table_elem_of job out symbols s :
  queryFlags job StripParentheses = false →
  s ∈ foldl (scanSymbol matchSymbolName isFunctionVariable filterKind job) out symbols
  ↔ s ∈ out
    ∨ ∃ symbol, symbol ∈ symbols ∧ listed matchSymbolName filterKind job symbol
                ∧ s = symbolName symbol.
Proof.
  intros Hstrip. revert out.
  induction symbols as [|symbol symbols IH]; intros out; simpl.
  { split; [by left|]. intros [?|(? & ? & _)]; [done|set_solver]. }
  rewrite IH. unfold scanSymbol at 1. rewrite Hstrip. unfold listed.
  destruct (filterKind symbol) eqn:Hk; simpl.
  2:{ split; (intros [?|(y & Hy & Hl & ?)]; [by left|right]).
      - exists y. split; [set_solver|done].
      - apply elem_of_cons in Hy as [->|Hy]; [|by eauto].
        destruct Hl as [? _]. congruence. }
  destruct (isEmpty (symbolName symbol)) eqn:He.
  { apply isEmpty_true' in He.
    split; (intros [?|(y & Hy & Hl & ?)]; [by left|right]).
    - exists y. split; [set_solver|done].
    - apply elem_of_cons in Hy as [->|Hy]; [|by eauto].
      destruct Hl as (_ & ? & _). done. }
  destruct (nameMatches matchSymbolName job (symbolName symbol)) eqn:Hm; simpl.
  2:{ split; (intros [?|(y & Hy & Hl & ?)]; [by left|right]).
      - exists y. split; [set_solver|done].
      - apply elem_of_cons in Hy as [->|Hy]; [|by eauto].
        destruct Hl as (_ & _ & ?). congruence. }
  apply isEmpty_false in He. rewrite elem_of_union, elem_of_singleton. split.
  - intros [[->|?]|(y & Hy & Hl & ?)]; [right|by left|right].
    + exists symbol. split; [set_solver|done].
    + exists y. split; [set_solver|done].
  - intros [?|(y & Hy & Hl & ->)]; [by left; right|].
    apply elem_of_cons in Hy as [->|Hy]; [by left; left|]. right. eauto.
Qed.

End scan_facts.

Lemma extend_fields job :
  queryFlags (extend job) = queryFlags job
  ∧ pathFilters (extend job) = pathFilters job
  ∧ project (extend job) = project job.
Proof. unfold extend. by destruct (_ && _ && _). Qed.

(** X24. With strip-parentheses requested no listed name holds an opening
    parenthesis, in the path-filtered scan and in the project-wide scan
    alike: what [execute] collects is free of them. *)
Theorem stripped_listing_is_bare
    (matchSymbolName : string → string → CaseSensitivity → bool)
    (isFunctionVariable : string → bool) (filterKind : Symbol → bool)
    (hasFilter hasKindFilter : bool) (filter_ : Path → bool)
    (Location_fileId : Path → N) (Location_path : N → Path) (isFile : Path → bool)
    (openSymbols : Project → N → option (list Symbol))
    (findSymbol : Project → Location → Symbol)
    (findSymbols : Project → string → (QueryFlag → bool) → list (string * list Location))
    (job job' : ListSymbolsJob) (out : gset string) :
  queryFlags job StripParentheses = true →
  collect matchSymbolName isFunctionVariable filterKind hasFilter hasKindFilter
    filter_ Location_fileId Location_path isFile openSymbols findSymbol findSymbols job
  = Ok (out, job') →
  bare out.
Proof.
  intros Hstrip. unfold collect.
  destruct (project job) as [proj|]; [|intros ?; simplify_eq; intros s Hs; set_solver].
  assert (queryFlags (extend job) StripParentheses = true) as Hstrip'
    by (by rewrite (proj1 (extend_fields job))).
  destruct (negb _).
  - cbn [obind]. intros ?; simplify_eq. by apply listSymbolsWithPathFilter_bare.
  - unfold listSymbols.
    destruct (insertAll _ _ _ _ _ _ _ _ _ _ _) as [out1| | |] eqn:Hall;
      cbn [obind]; try done.
    intros ?; simplify_eq. eapply insertAll_bare; [exact Hstrip'| |exact Hall].
    intros s Hs. set_solver.
Qed.

Lemma stripped_listing_is_bare_witness :
  ∃ out job',
    collect matchSymbolName_glob no_function_variable any_kind false false
      any_path fileId_of path_of is_a_cpp symbols_of symbol_at names_of
      (foo_query_with stripping []) = Ok (out, job')
    ∧ bare out.
Proof.
  eexists _, _. split; [vm_compute; reflexivity|].
  eapply (stripped_listing_is_bare matchSymbolName_glob no_function_variable any_kind
            false false any_path fileId_of path_of is_a_cpp symbols_of symbol_at
            names_of (foo_query_with stripping [])); [reflexivity|].
  vm_compute. reflexivity.
Defined.

(** X25. What [execute] writes: the collected names, each once, in
    ascending order, between the two brackets in Elisp mode (where a
    reverse-sort request has no effect) and otherwise bare, in descending
    order when reverse sort is requested; the exit code is 1 when no name
    is written and 0 otherwise. *)
Theorem execute_output
    (matchSymbolName : string → string → CaseSensitivity → bool)
    (isFunctionVariable : string → bool) (filterKind : Symbol → bool)
    (hasFilter hasKindFilter : bool) (filter_ : Path → bool)
    (Location_fileId : Path → N) (Location_path : N → Path) (isFile : Path → bool)
    (openSymbols : Project → N → option (list Symbol))
    (findSymbol : Project → Location → Symbol)
    (findSymbols : Project → string → (QueryFlag → bool) → list (string * list Location))
    (job job' : ListSymbolsJob) (code : Z) (written : list Written) :
  execute matchSymbolName isFunctionVariable filterKind hasFilter hasKindFilter
    filter_ Location_fileId Location_path isFile openSymbols findSymbol findSymbols job
  = Ok (code, written, job') →
  ∃ out names,
    collect matchSymbolName isFunctionVariable filterKind hasFilter hasKindFilter
      filter_ Location_fileId Location_path isFile openSymbols findSymbol findSymbols job
    = Ok (out, job')
    ∧ (∀ s, s ∈ names ↔ s ∈ out) ∧ NoDup names ∧ StronglySorted le names
    ∧ written
      = (if queryFlags job Elisp
         then [Bracket "(list"] ++ (Item <$> names) ++ [Bracket ")"]
         else if queryFlags job ReverseSort then Item <$> reverse names
         else Item <$> names)
    ∧ (code = 1%Z ∧ names = [] ∨ code = 0%Z ∧ names ≠ []).
Proof.
  unfold execute.
  destruct (collect _ _ _ _ _ _ _ _ _ _ _ _ job) as [[out j]| | |] eqn:Hcollect;
    cbn [obind]; try done.
  assert (queryFlags j = queryFlags job) as Hflags.
  { revert Hcollect. unfold collect. destruct (project job); [|by intros ?; simplify_eq].
    destruct (if negb _ then _ else _); cbn [obind]; try done.
    intros ?; simplify_eq. apply extend_fields. }
  rewrite Hflags. intros ?; simplify_eq.
  exists out, (merge_sort le (elements out)).
  pose proof (merge_sort_Permutation le (elements out)) as Hperm.
  pose proof (merge_sort_le_StronglySorted (elements out)) as Hsorted.
  split; [done|]. split; [|split; [|split; [done|split]]].
  - intros s. rewrite Hperm. apply elem_of_elements.
  - rewrite Hperm. apply NoDup_elements.
  - rewrite (merge_sort_le_sorted (merge_sort le (elements out))),
      (merge_sort_ge_sorted (merge_sort le (elements out))) by done.
    done.
  - case_bool_decide as Hout.
    + left. split; [done|]. subst out. by rewrite elements_empty.
    + right. split; [done|]. intros Hnil. apply Hout.
      apply leibniz_equiv, elements_empty_inv. rewrite Hnil in Hperm.
      by apply Permutation_nil_l in Hperm.
Qed.

Lemma execute_output_witness :
  ∃ out names,
    collect matchSymbolName_glob no_function_variable any_kind false false
      any_path fileId_of path_of is_a_cpp symbols_of symbol_at names_of
      (foo_query_with reversed []) = Ok (out, foo_query_with reversed [])
    ∧ (∀ s, s ∈ names ↔ s ∈ out) ∧ NoDup names ∧ StronglySorted le names
    ∧ [Item "foo(int)"; Item "foo"] = Item <$> reverse names
    ∧ (0%Z = 1%Z ∧ names = [] ∨ 0%Z = 0%Z ∧ names ≠ []).
Proof.
  apply (execute_output matchSymbolName_glob no_function_variable any_kind false false
           any_path fileId_of path_of is_a_cpp symbols_of symbol_at names_of
           (foo_query_with reversed []) (foo_query_with reversed []) 0
           [Item "foo(int)"; Item "foo"]).
  vm_compute. reflexivity.
Defined.

(** X26. Without a project [execute] scans nothing: it writes no name
    (only the two brackets in Elisp mode), leaves the query as it is and
    exits with 1. *)
Theorem execute_without_project
    (matchSymbolName : string → string → CaseSensitivity → bool)
    (isFunctionVariable : string → bool) (filterKind : Symbol → bool)
    (hasFilter hasKindFilter : bool) (filter_ : Path → bool)
    (Location_fileId : Path → N) (Location_path : N → Path) (isFile : Path → bool)
    (openSymbols : Project → N → option (list Symbol))
    (findSymbol : Project → Location → Symbol)
    (findSymbols : Project → string → (QueryFlag → bool) → list (string * list Location))
    (job : ListSymbolsJob) :
  project job = None →
  execute matchSymbolName isFunctionVariable filterKind hasFilter hasKindFilter
    filter_ Location_fileId Location_path isFile openSymbols findSymbol findSymbols job
  = Ok (1%Z,
        if queryFlags job Elisp then [Bracket "(list"; Bracket ")"] else [],
        job).
Proof.
  intros Hp. unfold execute, collect. rewrite Hp. cbn [obind].
  rewrite elements_empty. rewrite bool_decide_true by done.
  destruct (queryFlags job Elisp), (queryFlags job ReverseSort); reflexivity.
Qed.

Lemma execute_without_project_witness :
  execute matchSymbolName_glob no_function_variable any_kind false false
    any_path fileId_of path_of is_a_cpp symbols_of symbol_at names_of
    {| string_ := "foo"; queryFlags := λ _, false; pathFilters := []; project := None |}
  = Ok (1%Z, [],
        {| string_ := "foo"; queryFlags := λ _, false; pathFilters := [];
           project := None |}).
Proof.
  apply (execute_without_project matchSymbolName_glob no_function_variable any_kind
           false false any_path fileId_of path_of is_a_cpp symbols_of symbol_at names_of
           {| string_ := "foo"; queryFlags := λ _, false; pathFilters := [];
              project := None |}).
  reflexivity.
Defined.

(** X27. The path-filtered scan, parentheses kept, lists exactly the
    names of the symbols that pass its tests (kind filter, non-empty name,
    name test) in the tables of the given files; a path without a file
    identifier or without a table contributes nothing. *)
Theorem listSymbolsWithPathFilter_elem_of
    (matchSymbolName : string → string → CaseSensitivity → bool)
    (isFunctionVariable : string → bool) (filterKind : Symbol → bool)
    (Location_fileId : Path → N)
    (openSymbols : Project → N → option (list Symbol))
    (job : ListSymbolsJob) (proj : Project) (paths : list Path) (s : string) :
  queryFlags job StripParentheses = false →
  s ∈ listSymbolsWithPathFilter matchSymbolName isFunctionVariable filterKind
        Location_fileId openSymbols job proj paths
  ↔ ∃ file symbols symbol,
      file ∈ paths ∧ Location_fileId file ≠ 0%N
      ∧ openSymbols proj (Location_fileId file) = Some symbols
      ∧ symbol ∈ symbols
      ∧ listed matchSymbolName filterKind job symbol
      ∧ s = symbolName symbol.
Proof.
  intros Hstrip. unfold listSymbolsWithPathFilter.
  cut (∀ out : gset string,
         s ∈ foldl (λ out file,
                      let fileId := Location_fileId file in
                      if (fileId =? 0)%N then out
                      else match openSymbols proj fileId with
                           | None => out
                           | Some symbols =>
                               foldl (scanSymbol matchSymbolName isFunctionVariable
                                        filterKind job) out symbols
                           end) out paths
         ↔ s ∈ out
           ∨ ∃ file symbols symbol,
               file ∈ paths ∧ Location_fileId file ≠ 0%N
               ∧ openSymbols proj (Location_fileId file) = Some symbols
               ∧ symbol ∈ symbols
               ∧ listed matchSymbolName filterKind job symbol
               ∧ s = symbolName symbol).
  { intros H. rewrite H. split; [intros [?|?]; [set_solver|done]|by right]. }
  induction paths as [|file paths IH]; intros out; simpl.
  { split; [by left|]. intros [?|(? & ? & ? & ? & _)]; [done|set_solver]. }
  rewrite IH. clear IH.
  destruct (N.eqb_spec (Location_fileId file) 0%N) as [Hz|Hnz].
  { split; (intros [?|(f & ss & y & Hf & Hid & Hrest)]; [by left|right]).
    - exists f, ss, y. split; [set_solver|done].
    - apply elem_of_cons in Hf as [->|Hf]; [done|]. by exists f, ss, y. }
  destruct (openSymbols proj (Location_fileId file)) as [symbols|] eqn:Hopen.
  2:{ split; (intros [?|(f & ss & y & Hf & Hid & Ho & Hrest)]; [by left|right]).
      - exists f, ss, y. split; [set_solver|done].
      - apply elem_of_cons in Hf as [->|Hf]; [congruence|]. by exists f, ss, y. }
  rewrite (scan_table_elem_of matchSymbolName isFunctionVariable filterKind) by done.
  split.
  - intros [[?|(y & Hy & Hl & ->)]|(f & ss & y & Hf & Hrest)]; [by left|right..].
    + exists file, symbols, y. split; [set_solver|done].
    + exists f, ss, y. split; [set_solver|done].
  - intros [?|(f & ss & y & Hf & Hid & Ho & Hy & Hl & ->)]; [by left; left|].
    apply elem_of_cons in Hf as [->|Hf].
    + left. right. simplify_eq. by exists y.
    + right. by exists f, ss, y.
Qed.

Lemma listSymbolsWithPathFilter_elem_of_witness :
  "foo(int)" ∈ listSymbolsWithPathFilter matchSymbolName_glob no_function_variable
                 any_kind fileId_of symbols_of (foo_query []) the_project
                 ["/src/a.cpp"].
Proof.
  apply (listSymbolsWithPathFilter_elem_of matchSymbolName_glob no_function_variable
           any_kind fileId_of symbols_of (foo_query []) the_project ["/src/a.cpp"]);
    [reflexivity|].
  exists "/src/a.cpp", [foo_int], foo_int.
  split; [set_solver|]. split; [done|]. split; [reflexivity|].
  split; [set_solver|]. split; [|reflexivity]. by repeat split.
Defined.

Section inserter_facts.
Variable isFunctionVariable : string → bool.
Variable filterKind : Symbol → bool.
Variable hasFilter hasKindFilter : bool.
Variable filter_ : Path → bool.
Variable Location_path : N → Path.
Variable findSymbol : Project → Location → Symbol.

Lemma inserter_elem_of job proj out str locations out' s :
  inserter isFunctionVariable filterKind hasFilter hasKindFilter filter_
    Location_path findSymbol job proj out str locations = Ok out' →
  s ∈ out' →
  s ∈ out ∨ s = str
  ∨ (s = left (indexOf "(" str) str ∧ isFunctionVariable str = false).
Proof.
  unfold inserter.
  destruct (hasFilter && _); [by intros ?; simplify_eq; left|].
  destruct (if hasKindFilter then _ else _) as [ok| | |]; cbn [obind]; try done.
  destruct (negb ok); [by intros ?; simplify_eq; left|].
  destruct (indexOf "(" str =? -1)%Z; intros ?; simplify_eq.
  - rewrite elem_of_union, elem_of_singleton. tauto.
  - destruct (isFunctionVariable str), (queryFlags job StripParentheses); simpl;
      rewrite ?elem_of_union, ?elem_of_singleton; tauto.
Qed.

Lemma insertAll_elem_of job proj out l out' s :
  insertAll isFunctionVariable filterKind hasFilter hasKindFilter filter_
    Location_path findSymbol job proj out l = Ok out' →
  s ∈ out' →
  s ∈ out
  ∨ ∃ str locations,
      (str, locations) ∈ l
      ∧ (s = str ∨ (s = left (indexOf "(" str) str ∧ isFunctionVariable str = false)).
Proof.
  revert out. induction l as [|[str locations] l IH]; intros out; simpl.
  { intros ?; simplify_eq. by left. }
  destruct (inserter _ _ _ _ _ _ _ _ _ _ _ _) as [out1| | |] eqn:Hins;
    cbn [obind]; try done.
  intros Hall Hs. destruct (IH out1 Hall Hs) as [Hs1|(str' & locs' & Hin & Hcase)].
  - destruct (inserter_elem_of _ _ _ _ _ _ _ Hins Hs1) as [?|Hcase]; [by left|].
    right. exists str, locations. split; [set_solver|done].
  - right. exists str', locs'. split; [set_solver|done].
Qed.

End inserter_facts.

(** X28. The project-wide scan lists nothing of its own: every name it
    returns was handed over by [findSymbols], either whole or cut before
    its first parenthesis, and it is cut only for names that are not
    function-pointer variables. *)
Theorem listSymbols_sound
    (isFunctionVariable : string → bool) (filterKind : Symbol → bool)
    (hasFilter hasKindFilter : bool) (filter_ : Path → bool)
    (Location_path : N → Path)
    (findSymbol : Project → Location → Symbol)
    (findSymbols : Project → string → (QueryFlag → bool) → list (string * list Location))
    (job : ListSymbolsJob) (proj : Project) (out : gset string) (s : string) :
  listSymbols isFunctionVariable filterKind hasFilter hasKindFilter filter_
    Location_path findSymbol findSymbols job proj = Ok out →
  s ∈ out →
  ∃ str locations,
    (str, locations) ∈ findSymbols proj (string_ job) (queryFlags job)
    ∧ (s = str ∨ (s = left (indexOf "(" str) str ∧ isFunctionVariable str = false)).
Proof.
  unfold listSymbols. intros Hall Hs.
  destruct (insertAll_elem_of _ _ _ _ _ _ _ _ _ _ _ _ _ Hall Hs) as [?|?]; [set_solver|done].
Qed.

Lemma listSymbols_sound_witness :
  ∃ str locations,
    (str, locations) ∈ names_of the_project "foo*" (queryFlags (foo_query []))
    ∧ ("foo" = str
       ∨ ("foo" = left (indexOf "(" str) str ∧ no_function_variable str = false)).
Proof.
  apply (listSymbols_sound no_function_variable any_kind false false any_path path_of
           symbol_at names_of (foo_query []) the_project
           ({["foo(int)"]} ∪ ({["foo"]} ∪ ∅)) "foo").
  - reflexivity.
  - set_solver.
Defined.
